(** * mbox: incremental message-boundary scanner

    A shallow embedding of the split functions [scanHeader], [findFroms] and
    [scanMessage] and of the [Scanner] pull iterator of the Go package [mbox],
    in its three source variants:

    - [Current]: the findFroms/header-probe variant (two-result [findFroms]);
    - [FromList]: the variant whose [findFroms] returns every candidate;
    - [Regex]: the variant that locates separators with a regular expression.

    Byte slices are [list byte]; Go [int]s are [Z] (with [-1] for "not
    found"); a nil token is [None]. *)

From Stdlib Require Import ZArith List Lia Bool.
From Stdlib Require Import Strings.Byte Strings.String.
Import ListNotations.
Local Open Scope string_scope.
Local Open Scope list_scope.
Local Open Scope Z_scope.

(** ** Byte slices and the functions of Go's [bytes] package the scanner uses *)

Definition bytes := list byte.

Definition B (s : string) : bytes := list_byte_of_string s.

Definition LF : byte := x0a.

Definition len (s : bytes) : Z := Z.of_nat (List.length s).

(** [s[i:]] for [0 <= i <= len s]. *)
Definition from (s : bytes) (i : Z) : bytes := skipn (Z.to_nat i) s.

(** [s[:j]] for [0 <= j <= len s]. *)
Definition upto (s : bytes) (j : Z) : bytes := firstn (Z.to_nat j) s.

(** [s[i:j]] for [0 <= i <= j <= len s]. *)
Definition slice (s : bytes) (i j : Z) : bytes := upto (from s i) (j - i).

(** [s[i]] for [0 <= i < len s]. *)
Definition at_ (s : bytes) (i : Z) : byte := nth (Z.to_nat i) s x00.

Fixpoint HasPrefix (s p : bytes) {struct p} : bool :=
  match p with
  | [] => true
  | b :: p' =>
      match s with
      | [] => false
      | a :: s' => Byte.eqb a b && HasPrefix s' p'
      end
  end.

(** [bytes.Index]: offset of the first occurrence of [sep] in [s], or [-1]. *)
Fixpoint Index (s sep : bytes) : Z :=
  if HasPrefix s sep then 0
  else match s with
       | [] => -1
       | _ :: s' => let r := Index s' sep in if r =? -1 then -1 else r + 1
       end.

(** [bytes.IndexByte]. *)
Fixpoint IndexByte (s : bytes) (c : byte) : Z :=
  match s with
  | [] => -1
  | a :: s' =>
      if Byte.eqb a c then 0
      else let r := IndexByte s' c in if r =? -1 then -1 else r + 1
  end.

(** Lines joined the way the test data is written: every line is closed by
    a line break. *)
Fixpoint unlines (ls : list string) : bytes :=
  match ls with
  | [] => []
  | l :: ls' => B l ++ LF :: unlines ls'
  end.

(** ** Errors and results of a split function *)

Inductive error : Type :=
| ErrInvalidMboxFormat
| ErrHeader          (* an error of the header decoder *)
| ErrNegativeAdvance (* bufio.ErrNegativeAdvance *)
| ErrAdvanceTooFar   (* bufio.ErrAdvanceTooFar *)
| Panic.             (* a run-time panic: index or slice bounds out of range *)

(** A split function returns [(advance, token, err)]. *)
Record SplitResult : Type := mkRes
  { advance : Z; token : option bytes; err : option error }.

Definition needMoreData : SplitResult := mkRes 0 None None.

(** A panic ends the program; the model records it as the result of the
    call, so that a scan stops there. *)
Definition panic : SplitResult := mkRes 0 None (Some Panic).

Definition SplitFunc := bytes -> bool -> SplitResult.

(** ** scanHeader (identical in the three variants) *)

Definition scanHeader (data : bytes) (atEOF : bool) : SplitResult :=
  if (len data =? 0) && atEOF then mkRes 0 None None
  else
    let e := Index data [LF; LF; LF] in
    if (e =? -1) && negb atEOF then mkRes 0 None None
    else if atEOF then mkRes (len data) (Some data) None
    else mkRes (e + 3) (Some (upto data (e + 3))) None.

(** ** The external header decoder

    [textproto.Reader.ReadMIMEHeader] and [mail.ReadMessage] belong to Go's
    standard library; the scanner only looks at the error, at the number of
    keys of the header map and at its [Content-Type] value.  A header map is
    an association list from canonical keys to their values. *)

Definition MIMEHeader := list (bytes * list bytes).

Definition bytes_eqb (a b : bytes) : bool :=
  (len a =? len b) && HasPrefix a b.

Fixpoint distinctKeys (h : MIMEHeader) (seen : list bytes) : Z :=
  match h with
  | [] => 0
  | (k, _) :: h' =>
      if existsb (bytes_eqb k) seen then distinctKeys h' seen
      else 1 + distinctKeys h' (k :: seen)
  end.

(** [len(header)]: the number of keys of the map. *)
Definition headerLen (h : MIMEHeader) : Z := distinctKeys h [].

(** [header.Get(key)]: the first value stored under [key], or the empty
    string. *)
Fixpoint Get (h : MIMEHeader) (key : bytes) : bytes :=
  match h with
  | [] => []
  | (k, vs) :: h' =>
      if bytes_eqb k key then match vs with v :: _ => v | [] => [] end
      else Get h' key
  end.

(** [mail.Message]. *)
Record MailMessage : Type := mkMessage { Header : MIMEHeader; Body : bytes }.

Definition HeaderDecoder := bytes -> MIMEHeader * option error.
Definition MessageDecoder := bytes -> MailMessage + error.

Definition isDigit (c : byte) : bool :=
  (Byte.to_N c <=? 57)%N && (48 <=? Byte.to_N c)%N.

(** The four bytes before the line break at [nextLine]: three digits
    preceded by ['1'] or ['2']. *)
Definition yearSuffix (data : bytes) (nextLine : Z) : bool :=
  isDigit (at_ data (nextLine - 1)) &&
  isDigit (at_ data (nextLine - 2)) &&
  isDigit (at_ data (nextLine - 3)) &&
  (Byte.eqb (at_ data (nextLine - 4)) "1" || Byte.eqb (at_ data (nextLine - 4)) "2").

Definition nlFrom : bytes := LF :: B "From ".

(** ** The current variant: findFroms with two results, header probe *)

Module Current.

(** One pass of the [for] loop of [findFroms]: the pair it returns, or the
    [curPos] it continues with. *)
Definition findFromsStep (data : bytes) (curPos : Z) : Z * Z + Z :=
  let fromPos := Index (from data curPos) nlFrom in
  let fromPos := if HasPrefix (from data curPos) (B "From ") then 0 else fromPos in
  if fromPos =? -1 then inl (-1, -1)
  else
    let fromPos := fromPos + curPos in
    let nextLine := IndexByte (from data (fromPos + 1)) LF in
    if nextLine =? -1 then inl (-1, -1)
    else
      let nextLine := nextLine + (fromPos + 1) in
      if yearSuffix data nextLine then inl (fromPos, nextLine + 1)
      else inr nextLine.

(** The loop of [findFroms]; every pass moves [curPos] to a later line
    break, so [S (length data)] passes are enough ([None]: out of fuel). *)
Fixpoint findFromsLoop (fuel : nat) (data : bytes) (curPos : Z) : option (Z * Z) :=
  match fuel with
  | O => None
  | S fuel' =>
      match findFromsStep data curPos with
      | inl r => Some r
      | inr curPos' => findFromsLoop fuel' data curPos'
      end
  end.

Definition findFroms (data : bytes) : Z * Z :=
  match findFromsLoop (S (List.length data)) data 0 with
  | Some r => r
  | None => (-1, -1)
  end.

Section Split.

Variable ReadMIMEHeader : HeaderDecoder.

(** One pass of the [for] loop of [scanMessage]: the result it returns, or
    the [curEnd] it continues with. *)
Definition scanStep (data : bytes) (atEOF : bool) (end_ curEnd : Z)
  : SplitResult + Z :=
  let '(priorStart, priorEnd) := findFroms (from data curEnd) in
  if (priorStart =? -1) || (priorEnd =? -1) then
    if atEOF then inl (mkRes (len data) (Some (from data end_)) None)
    else inl needMoreData
  else
    let curStart := priorStart + curEnd in
    let curEnd := priorEnd + curEnd in
    if Index (from data curEnd) [LF; LF] =? -1 then inl needMoreData
    else
      let '(header, err) := ReadMIMEHeader (from data curEnd) in
      match err with
      | Some _ => inr curEnd
      | None =>
          if headerLen header <? 2 then inr curEnd
          else inl (mkRes (curStart - 1) (Some (slice data end_ curStart)) None)
      end.

Fixpoint scanLoop (fuel : nat) (data : bytes) (atEOF : bool) (end_ curEnd : Z)
  : option SplitResult :=
  match fuel with
  | O => None
  | S fuel' =>
      match scanStep data atEOF end_ curEnd with
      | inl r => Some r
      | inr curEnd' => scanLoop fuel' data atEOF end_ curEnd'
      end
  end.

Definition scanMessage (data : bytes) (atEOF : bool) : SplitResult :=
  if (len data =? 0) && atEOF then mkRes 0 None None
  else
    let '(start, end_) := findFroms data in
    if (start =? -1) || (end_ =? -1) then
      if negb atEOF then mkRes 0 None None
      else mkRes (len data) None None
    else
      match scanLoop (S (List.length data)) data atEOF end_ end_ with
      | Some r => r
      | None => needMoreData
      end.

End Split.

End Current.

(** ** A reference header decoder

    An executable model of [textproto.Reader.ReadMIMEHeader] and of
    [mail.ReadMessage], written from the documentation of Go's standard
    library, for running the split functions on concrete archives.  The
    theorems about the split functions hold for every decoder; this one
    instantiates them.  Lines end in LF or CR LF; a line that starts with a
    space or a tab continues the previous one; a key is a non-empty token
    closed by the first colon; the header ends at the first empty line, and
    running out of input before it is an error. *)

Module Textproto.

Definition isSpace (c : byte) : bool := Byte.eqb c " " || Byte.eqb c x09.

Fixpoint trimLeft (s : bytes) : bytes :=
  match s with
  | c :: s' => if isSpace c then trimLeft s' else s
  | [] => []
  end.

Definition trim (s : bytes) : bytes := rev (trimLeft (rev (trimLeft s))).

(** The lines of [s] without their line ends, each with the number of bytes
    it takes in [s]. *)
Fixpoint splitLines (s cur : bytes) (n : Z) : list (bytes * Z) :=
  match s with
  | [] => match cur with [] => [] | _ => [(rev cur, n)] end
  | c :: s' =>
      if Byte.eqb c LF then
        (rev (match cur with x0d :: cur' => cur' | _ => cur end), n + 1)
          :: splitLines s' [] 0
      else splitLines s' (c :: cur) (n + 1)
  end.

Definition isUpper (c : byte) : bool := (65 <=? Byte.to_N c)%N && (Byte.to_N c <=? 90)%N.
Definition isLower (c : byte) : bool := (97 <=? Byte.to_N c)%N && (Byte.to_N c <=? 122)%N.

Definition shiftCase (c : byte) (d : Z) : byte :=
  match Byte.of_N (Z.to_N (Z.of_N (Byte.to_N c) + d)) with
  | Some c' => c'
  | None => c
  end.

Definition isTokenByte (c : byte) : bool :=
  isUpper c || isLower c || isDigit c ||
  existsb (Byte.eqb c) (B "!#$%&'*+-.^_`|~").

(** [CanonicalMIMEHeaderKey]: the first letter and every letter after a
    hyphen in upper case, the others in lower case. *)
Fixpoint canonical (k : bytes) (upper : bool) : bytes :=
  match k with
  | [] => []
  | c :: k' =>
      let c' := if upper then (if isLower c then shiftCase c (-32) else c)
                else (if isUpper c then shiftCase c 32 else c) in
      c' :: canonical k' (Byte.eqb c "-")
  end.

Fixpoint addValue (m : MIMEHeader) (key value : bytes) : MIMEHeader :=
  match m with
  | [] => [(key, [value])]
  | (k, vs) :: m' =>
      if bytes_eqb k key then (k, vs ++ [value]) :: m'
      else (k, vs) :: addValue m' key value
  end.

Fixpoint cut (kv key : bytes) : option (bytes * bytes) :=
  match kv with
  | [] => None
  | c :: kv' => if Byte.eqb c ":" then Some (rev key, kv') else cut kv' (c :: key)
  end.

(** One logical line [kv] entered in the map. *)
Definition addLine (m : MIMEHeader) (kv : bytes) : MIMEHeader + error :=
  match cut kv [] with
  | None => inr ErrHeader
  | Some (k, v) =>
      if forallb isTokenByte k then
        match k with
        | [] => inl m
        | _ => inl (addValue m (canonical k true) (trimLeft v))
        end
      else inr ErrHeader
  end.

Definition flush (m : MIMEHeader) (cur : option bytes) : MIMEHeader + error :=
  match cur with
  | None => inl m
  | Some kv => addLine m kv
  end.

(** The decoder's loop over the lines: [cur] is the logical line being
    collected, [n] the number of bytes read. *)
Fixpoint readLines (ls : list (bytes * Z)) (cur : option bytes) (m : MIMEHeader) (n : Z)
  : MIMEHeader * option error * Z :=
  match ls with
  | [] =>
      match flush m cur with
      | inl m' => (m', Some ErrHeader, n)
      | inr e => (m, Some e, n)
      end
  | (l, k) :: ls' =>
      match l, cur with
      | c :: _, None =>
          if isSpace c then (m, Some ErrHeader, n)
          else match cut l [] with
               | None => (m, Some ErrHeader, n)
               | Some _ => readLines ls' (Some (trim l)) m (n + k)
               end
      | c :: _, Some kv =>
          if isSpace c then readLines ls' (Some (kv ++ B " " ++ trim l)) m (n + k)
          else match flush m cur with
               | inr e => (m, Some e, n)
               | inl m' =>
                   match cut l [] with
                   | None => (m', Some ErrHeader, n)
                   | Some _ => readLines ls' (Some (trim l)) m' (n + k)
                   end
               end
      | [], _ =>
          match flush m cur with
          | inl m' => (m', None, n + k)
          | inr e => (m, Some e, n)
          end
      end
  end.

Definition ReadMIMEHeader : HeaderDecoder :=
  fun data => fst (readLines (splitLines data [] 0) None [] 0).

Definition ReadMessage : MessageDecoder :=
  fun data =>
    match readLines (splitLines data [] 0) None [] 0 with
    | (h, None, n) => inl (mkMessage h (from data n))
    | (_, Some e, _) => inr e
    end.

End Textproto.

Definition mboxWithOneMessage : bytes := unlines
  [ "From herp.derp at example.com  Thu Jan  1 00:00:01 2015";
    "From: herp.derp at example.com (Herp Derp)";
    "Date: Thu, 01 Jan 2015 00:00:01 +0100";
    "Subject: Test";
    EmptyString;
    "This is a simple test.";
    EmptyString;
    "And, by the way, this is how a From line is escaped in mboxo format:";
    EmptyString;
    ">From Herp Derp with love.";
    EmptyString;
    "Bye." ].


(** ** Functions of Go's [strings] package used on the Content-Type value *)

Definition Contains (s sub : bytes) : bool := negb (Index s sub =? -1).

(** [strings.Split] for a non-empty separator; [skip] counts the bytes of a
    separator still to pass, [cur] collects the current piece. *)
Fixpoint SplitAux (s sep : bytes) (skip : nat) (cur : bytes) : list bytes :=
  match s with
  | [] => [rev cur]
  | c :: s' =>
      match skip with
      | S k => SplitAux s' sep k cur
      | O =>
          if HasPrefix s sep then rev cur :: SplitAux s' sep (List.length sep - 1) []
          else SplitAux s' sep 0 (c :: cur)
      end
  end.

Definition Split (s sep : bytes) : list bytes := SplitAux s sep 0 [].

Fixpoint TrimLeftSet (s cutset : bytes) : bytes :=
  match s with
  | c :: s' => if existsb (Byte.eqb c) cutset then TrimLeftSet s' cutset else s
  | [] => []
  end.

Definition TrimRight (s cutset : bytes) : bytes :=
  rev (TrimLeftSet (rev s) cutset).

Definition Trim (s cutset : bytes) : bytes :=
  TrimRight (TrimLeftSet s cutset) cutset.

(** The double and the single quote. *)
Definition quotes : bytes := [x22; x27].

(** The loop over the pieces of the Content-Type value: the boundary of the
    first piece that starts with [boundary=], between [pre] and [post]. *)
Fixpoint boundaryOf (splt : list bytes) (pre post : bytes) : bytes :=
  match splt with
  | [] => []
  | v :: rest =>
      if HasPrefix v (B "boundary=") then
        let c := Index v (B "=") + 1 in
        pre ++ Trim (TrimRight (from v c) (B ";")) quotes ++ post
      else boundaryOf rest pre post
  end.

(** [data[i:j]], or [None] where Go panics; an upper bound past [len data]
    counts as a panic. *)
Definition sliceChk (data : bytes) (i j : Z) : option bytes :=
  if (0 <=? i) && (i <=? j) && (j <=? len data) then Some (slice data i j) else None.

(** [data[i]], or [None] where Go panics. *)
Definition atChk (data : bytes) (i : Z) : option byte :=
  if (0 <=? i) && (i <? len data) then Some (at_ data i) else None.

(** ** The variant that finds separators with a regular expression *)

Module Regex.

(** [(19|20)[0-9]{2}] at the head of [l]. *)
Definition yearAt (l : bytes) : bool :=
  match l with
  | c1 :: c2 :: d1 :: d2 :: _ =>
      ((Byte.eqb c1 "1" && Byte.eqb c2 "9") || (Byte.eqb c1 "2" && Byte.eqb c2 "0"))
      && isDigit d1 && isDigit d2
  | _ => false
  end.

(** [.*(19|20)[0-9]{2}] at the head of [l]: the dot matches no line break. *)
Fixpoint lineHasYear (l : bytes) : bool :=
  yearAt l ||
  match l with
  | c :: l' => negb (Byte.eqb c LF) && lineHasYear l'
  | [] => false
  end.

Definition matchAt (s : bytes) : bool :=
  HasPrefix s nlFrom && lineHasYear (skipn 6 s).

(** [fromLine.FindIndex(data)[0]] for
    [fromLine = regexp.MustCompile("\nFrom .*(19|20)[0-9]{2}")]: where the
    leftmost match starts, or [-1]. *)
Fixpoint FindIndex (s : bytes) : Z :=
  if matchAt s then 0
  else match s with
       | [] => -1
       | _ :: s' => let r := FindIndex s' in if r =? -1 then -1 else r + 1
       end.

Section Split.

Variable ReadMIMEHeader : HeaderDecoder.

(** The last lines of [scanMessage], from [if data[e-1] != '\n']. *)
Definition emitAt (data : bytes) (n e advanceExtra : Z) : SplitResult :=
  match atChk data (e - 1) with
  | None => panic
  | Some c =>
      if negb (Byte.eqb c LF) then
        match sliceChk data (n + 1) (e + 1) with
        | Some t => mkRes (e + 1 + advanceExtra) (Some t) None
        | None => panic
        end
      else
        match sliceChk data (n + 1) e with
        | Some t => mkRes (e + 1 + advanceExtra) (Some t) None
        | None => panic
        end
  end.

(** [scanMessage] from the header decoder on ([atEOF] is false there). *)
Definition scanBody (data : bytes) (n e advanceExtra : Z) : SplitResult :=
  let '(header, herr) := ReadMIMEHeader (from data (n + 1)) in
  match herr with
  | Some x => mkRes 0 None (Some x)
  | None =>
      let cth := Get header (B "Content-Type") in
      let boundaryEnd :=
        if Contains cth (B "multipart")
        then boundaryOf (Split cth (B "; ")) (B "--") (B "--")
        else [] in
      match boundaryEnd with
      | [] => emitAt data n e advanceExtra
      | _ =>
          let b := Index data boundaryEnd in
          if b =? -1 then
            let c := Index data (LF :: B "Content-Type: multipart") in
            let d := Index (from data (c + 1)) (LF :: B "Content-Type: multipart") in
            if d + c + 1 >? e then
              match sliceChk data (n + 1) e with
              | Some t => mkRes (e + 1 + advanceExtra) (Some t) None
              | None => panic
              end
            else mkRes 0 None None
          else
            let e := if e <? b then FindIndex data + b else e in
            emitAt data n e advanceExtra
      end
  end.

(** [scanMessage] from [if e == -1 && !atEOF] on, with [data] and
    [advanceExtra] as the leading line break left them. *)
Definition scanFrom (data : bytes) (atEOF : bool) (advanceExtra e : Z) : SplitResult :=
  if (e =? -1) && negb atEOF then mkRes advanceExtra None None
  else if negb (HasPrefix data (B "From ")) then
    mkRes advanceExtra None (Some ErrInvalidMboxFormat)
  else
    let n := IndexByte data LF in
    if n =? -1 then mkRes advanceExtra None (Some ErrInvalidMboxFormat)
    else if atEOF then
      if negb (Byte.eqb (at_ data (len data - 1)) LF) then
        mkRes advanceExtra None (Some ErrInvalidMboxFormat)
      else mkRes (len data + advanceExtra) (Some (from data (n + 1))) None
    else scanBody data n e advanceExtra.

Definition scanMessage (data : bytes) (atEOF : bool) : SplitResult :=
  if (len data =? 0) && atEOF then mkRes 0 None None
  else
    let e := FindIndex data in
    if e =? 0 then
      (* advance past the leading LF *)
      scanFrom (from data 1) atEOF 1 (FindIndex (from data 1))
    else scanFrom data atEOF 0 e.

End Split.

End Regex.

(** ** The variant whose findFroms lists every candidate *)

Module FromList.

(** The loop of [findFroms]; [None]: out of fuel. *)
Fixpoint findFromsLoop (fuel : nat) (data : bytes) (fromPos : Z)
  (found : list (Z * Z)) : option (list (Z * Z)) :=
  match fuel with
  | O => None
  | S fuel' =>
      if fromPos =? -1 then Some found
      else
        let nextLine := IndexByte (from data (fromPos + 1)) LF in
        if nextLine =? -1 then Some found
        else
          let nextLine := nextLine + (fromPos + 1) in
          let found :=
            if yearSuffix data nextLine then found ++ [(fromPos, nextLine)]
            else found in
          let fromPos := Index (from data nextLine) nlFrom in
          let fromPos := if fromPos =? -1 then -1 else fromPos + (nextLine + 1) in
          findFromsLoop fuel' data fromPos found
  end.

Definition findFroms (data : bytes) : list (Z * Z) :=
  let fromPos := Index data nlFrom in
  let fromPos := if HasPrefix data (B "From ") then 0 else fromPos in
  match findFromsLoop (S (List.length data)) data fromPos [] with
  | Some found => found
  | None => []
  end.

Section Split.

Variable ReadMIMEHeader : HeaderDecoder.

(** The last [return] of [scanMessage], with [end0] the end of the first
    separator line and [start1] the start the message is cut at. *)
Definition emit (data : bytes) (end0 start1 : Z) : SplitResult :=
  match sliceChk data (end0 + 1) (start1 - 1) with
  | Some t => mkRes start1 (Some t) None
  | None => panic
  end.

Definition scanMessage (data : bytes) (atEOF : bool) : SplitResult :=
  if (len data =? 0) && atEOF then mkRes 0 None None
  else
    match findFroms data with
    | [] =>
        if negb atEOF then mkRes 0 None None
        else mkRes 0 None (Some ErrInvalidMboxFormat)
    | (_, end0) :: rest =>
        let fromLines1 :=
          match rest with [] => [(len data, len data)] | _ => rest end in
        let start1 := match fromLines1 with (p, _) :: _ => p | [] => len data end in
        match sliceChk data (end0 + 1) start1 with
        | None => panic
        | Some hdr =>
            let '(header, herr) := ReadMIMEHeader hdr in
            match herr with
            | Some x => mkRes 0 None (Some x)
            | None =>
                let cth := Get header (B "Content-Type") in
                let boundaryEnd :=
                  boundaryOf (Split cth (B "; ")) (LF :: B "--") (B "--" ++ [LF]) in
                match boundaryEnd with
                | [] => emit data end0 start1
                | _ =>
                    let b := Index data boundaryEnd in
                    if b =? -1 then
                      let c := Index data (LF :: B "Content-Type: ") in
                      let d := Index (from data (c + 1)) (LF :: B "Content-Type: multipart") in
                      if d + c + 1 >? start1 then emit data end0 start1
                      else mkRes 0 None None
                    else
                      match find (fun f => fst f >? b) fromLines1 with
                      | Some (p, _) => emit data end0 p
                      | None => mkRes 0 None None
                      end
                end
            end
        end
    end.

End Split.

End FromList.

(** ** bufio.Scanner

    The byte source is the list of chunks its [Read] calls deliver, end of
    input after the last.  The buffer holds the unconsumed window; it grows
    without limit (the token-size limit of [bufio] and its count of empty
    reads are left out). *)

Inductive scanErr : Type :=
| NoErr                 (* s.err == nil *)
| AtEOF                 (* s.err == io.EOF *)
| Failed (e : error).

Record BufScanner : Type := mkBuf
  { sbuf : bytes;            (* s.buf[s.start:s.end] *)
    ssrc : list bytes;       (* what the reader still holds *)
    serr : scanErr;
    stoken : option bytes }.

Definition newBufScanner (src : list bytes) : BufScanner :=
  mkBuf [] src NoErr None.

(** [s.setErr]: the first error that is not the end of input stays. *)
Definition setErr (old : scanErr) (e : error) : scanErr :=
  match old with
  | Failed _ => old
  | _ => Failed e
  end.

(** [s.Err()]. *)
Definition bufErr (s : BufScanner) : option error :=
  match serr s with
  | Failed e => Some e
  | _ => None
  end.

Section Scan.

Variable split : SplitFunc.

(** One call of the split function on the window [b] and what [Scan] does
    with its result: [inl] leaves [Scan], [inr] goes on to read with the
    window that is left.  [t0] is the token of the previous call, which a
    failing call leaves in place. *)
Definition trySplit (b : bytes) (src : list bytes) (e : scanErr)
  (t0 : option bytes) : (bool * BufScanner) + bytes :=
  let atEOF := match e with NoErr => false | _ => true end in
  let r := split b atEOF in
  match err r with
  | Some x => inl (false, mkBuf b src (setErr e x) t0)
  | None =>
      if advance r <? 0 then
        inl (false, mkBuf b src (setErr e ErrNegativeAdvance) t0)
      else if len b <? advance r then
        inl (false, mkBuf b src (setErr e ErrAdvanceTooFar) t0)
      else
        match token r with
        | Some t => inl (true, mkBuf (from b (advance r)) src e (Some t))
        | None => inr (from b (advance r))
        end
  end.

(** The pass of the loop once [s.err] is set: no further read. *)
Definition scanFinal (b : bytes) (src : list bytes) (e : scanErr)
  (t0 : option bytes) : bool * BufScanner :=
  match trySplit b src e t0 with
  | inl r => r
  | inr _ => (false, mkBuf [] src e None)
  end.

(** Reading until a token comes out. *)
Fixpoint scanRead (b : bytes) (src : list bytes) (t0 : option bytes)
  : bool * BufScanner :=
  match src with
  | [] => scanFinal b [] AtEOF t0
  | [] :: src' => scanRead b src' t0
  | c :: src' =>
      match trySplit (b ++ c) src' NoErr t0 with
      | inl r => r
      | inr b' => scanRead b' src' None
      end
  end.

Definition Scan (s : BufScanner) : bool * BufScanner :=
  match serr s with
  | NoErr =>
      match sbuf s with
      | [] => scanRead [] (ssrc s) (stoken s)
      | _ =>
          match trySplit (sbuf s) (ssrc s) NoErr (stoken s) with
          | inl r => r
          | inr b' => scanRead b' (ssrc s) None
          end
      end
  | e => scanFinal (sbuf s) (ssrc s) e (stoken s)
  end.

(** The tokens of at most [n] successful calls of [Scan], and the scanner
    they leave. *)
Fixpoint scanTokens (n : nat) (s : BufScanner) : list bytes * BufScanner :=
  match n with
  | O => ([], s)
  | S n' =>
      match Scan s with
      | (true, s') =>
          let '(ts, s'') := scanTokens n' s' in
          (match stoken s' with Some t => t | None => [] end :: ts, s'')
      | (false, s') => ([], s')
      end
  end.

End Scan.

(** ** Scanner: the pull iterator *)

Module Mbox.

Record Scanner : Type := mkScanner
  { s : BufScanner; m : option MailMessage; curByte : Z; merr : option error }.

Section Iterator.

Variable split : SplitFunc.
Variable ReadMessage : MessageDecoder.

Definition NewScanner (src : list bytes) : Scanner :=
  mkScanner (newBufScanner src) None 0 None.

Definition Location (sc : Scanner) : Z := curByte sc.

Definition Next (sc : Scanner) : bool * Scanner :=
  match merr sc with
  | Some _ => (false, mkScanner (s sc) None (curByte sc) (merr sc))
  | None =>
      match Scan split (s sc) with
      | (false, s') => (false, mkScanner s' None (curByte sc) (bufErr s'))
      | (true, s') =>
          let tok := match stoken s' with Some t => t | None => [] end in
          let cur := curByte sc + len tok in
          match ReadMessage tok with
          | inl msg => (true, mkScanner s' (Some msg) cur None)
          | inr e => (false, mkScanner s' None cur (Some e))
          end
      end
  end.

Definition Err (sc : Scanner) : option error := merr sc.

Definition Message (sc : Scanner) : option MailMessage :=
  match merr sc with
  | Some _ => None
  | None => m sc
  end.

(** [n] calls of [Next]: the results, oldest first, and the last state. *)
Fixpoint nexts (n : nat) (sc : Scanner) : list bool * Scanner :=
  match n with
  | O => ([], sc)
  | S n' => let '(ok, sc') := Next sc in
            let '(oks, sc'') := nexts n' sc' in (ok :: oks, sc'')
  end.

End Iterator.

End Mbox.

(** * Notions used by the statements *)

(** ** The marker of scanHeader and the token of a scan *)

Definition marker : bytes := [LF; LF; LF].

(** The token [Scan] left in the scanner, as [s.Bytes()] returns it. *)
Definition Bytes (b : BufScanner) : bytes :=
  match stoken b with Some t => t | None => [] end.

(** ** Separator candidates *)

(** A line that starts with [From ] begins at offset 0, or right after the
    line break at [s]. *)
Definition fromLineAt (data : bytes) (s : Z) : Prop :=
  (s = 0 /\ HasPrefix data (B "From ") = true) \/
  (0 <= s /\ HasPrefix (from data s) nlFrom = true).

(** [n] is the first line break after offset [s]. *)
Definition firstBreakAfter (data : bytes) (s n : Z) : Prop :=
  s < n < len data /\ at_ data n = LF /\ forall k, s < k < n -> at_ data k <> LF.

(** The four bytes before offset [n] look like a year: ['1'] or ['2'], then
    three decimal digits. *)
Definition yearBefore (data : bytes) (n : Z) : Prop :=
  (at_ data (n - 4) = "1"%byte \/ at_ data (n - 4) = "2"%byte) /\
  isDigit (at_ data (n - 3)) = true /\
  isDigit (at_ data (n - 2)) = true /\
  isDigit (at_ data (n - 1)) = true.

(** A separator candidate from [s] to [e]: a [From ] line whose line break
    is the byte before [e], with a year before the line break. *)
Definition candidate (data : bytes) (s e : Z) : Prop :=
  fromLineAt data s /\ firstBreakAfter data s (e - 1) /\ yearBefore data (e - 1).



(** ** Outcomes of a pass of the loop of scanMessage *)

Section Outcomes.

Variable rd : HeaderDecoder.

(** A pass of the loop accepted the candidate [(ps, pe)] found in
    [data[curEnd:]] and cut the message before it. *)
Definition acceptedAt (data : bytes) (end_ curEnd : Z) (r : SplitResult) : Prop :=
  exists ps pe h,
    Current.findFroms (from data curEnd) = (ps, pe) /\
    candidate (from data curEnd) ps pe /\
    Index (from data (pe + curEnd)) [LF; LF] <> -1 /\
    rd (from data (pe + curEnd)) = (h, None) /\ 2 <= headerLen h /\
    r = mkRes (ps + curEnd - 1) (Some (slice data end_ (ps + curEnd))) None.

(** A pass of the loop rejected the candidate that ends at [c]. *)
Definition rejectedAt (data : bytes) (curEnd c : Z) : Prop :=
  exists ps pe,
    Current.findFroms (from data curEnd) = (ps, pe) /\
    candidate (from data curEnd) ps pe /\ c = pe + curEnd /\
    Index (from data c) [LF; LF] <> -1 /\
    (snd (rd (from data c)) <> None \/ headerLen (fst (rd (from data c))) < 2).

End Outcomes.

(** ** Single-message archives *)

(** An archive with one message: it starts with a candidate line, and no
    other line of it is a candidate. *)
Definition singleMessage (archive : bytes) : Prop :=
  HasPrefix archive (B "From ") = true /\
  (exists e, candidate archive 0 e) /\
  forall s e, candidate archive s e -> s = 0.

(** The same for the regular-expression variant, whose expression matches
    a separator only after a line break: it matches nowhere in the
    archive. *)
Definition singleMessageRe (archive : bytes) : Prop :=
  HasPrefix archive (B "From ") = true /\ Regex.FindIndex archive = -1.

(** ** Results behind a leading line break *)

(** The result of a split function behind a leading line break: the same
    token, one byte more consumed. *)
Definition shiftRes (r : SplitResult) : SplitResult :=
  match token r with
  | Some _ => mkRes (advance r + 1) (token r) (err r)
  | None => r
  end.

(** The results of a split function on a buffer behind a leading line
    break ([r']) and on the buffer itself ([r]) agree: the same error, the
    same token, and the line break consumed along with what [r] consumes,
    or left in place by a request for more data. *)
Definition lfRel (r' r : SplitResult) : Prop :=
  err r' = err r /\ token r' = token r /\
  (err r = None ->
   0 <= advance r /\
   (advance r' = advance r + 1 \/
    (advance r' = 0 /\ advance r = 0 /\ token r = None))).

(** Two outcomes of [Scan] agree: the same result, token and error, and
    the same scanner, but for the buffer of a failed scan. *)
Definition lfOut (x' x : bool * BufScanner) : Prop :=
  fst x' = fst x /\ stoken (snd x') = stoken (snd x) /\
  serr (snd x') = serr (snd x) /\ ssrc (snd x') = ssrc (snd x) /\
  (sbuf (snd x') = sbuf (snd x) \/
   (fst x = false /\ exists e, serr (snd x) = Failed e)).

(** ** Archives of well-formed messages *)














(** * Properties *)

(** ** Slices *)

Lemma len_nonneg (s : bytes) : 0 <= len s.
Proof. unfold len; lia. Qed.

Lemma len_nil : len [] = 0.
Proof. reflexivity. Qed.

Lemma len_cons (a : byte) (s : bytes) : len (a :: s) = len s + 1.
Proof. unfold len; simpl List.length; lia. Qed.

Lemma len_app (s t : bytes) : len (s ++ t) = len s + len t.
Proof. unfold len; rewrite length_app; lia. Qed.

Lemma len_zero (s : bytes) : len s = 0 -> s = [].
Proof. destruct s; [reflexivity | rewrite len_cons; pose proof (len_nonneg s); lia]. Qed.

Lemma from_le0 (s : bytes) (i : Z) : i <= 0 -> from s i = s.
Proof. intros H; unfold from; replace (Z.to_nat i) with O by lia; reflexivity. Qed.

Lemma from_cons (a : byte) (s : bytes) (i : Z) :
  0 <= i -> from (a :: s) (i + 1) = from s i.
Proof.
  intros H; unfold from.
  replace (Z.to_nat (i + 1)) with (S (Z.to_nat i)) by lia; reflexivity.
Qed.


Lemma from_ge (s : bytes) (i : Z) : len s <= i -> from s i = [].
Proof. intros H; unfold from, len in *; apply skipn_all2; lia. Qed.

Lemma len_from (s : bytes) (i : Z) :
  0 <= i <= len s -> len (from s i) = len s - i.
Proof. intros H; unfold from, len in *; rewrite length_skipn; lia. Qed.

Lemma from_from (s : bytes) (i j : Z) :
  0 <= i -> 0 <= j -> from (from s i) j = from s (i + j).
Proof.
  intros Hi Hj; unfold from; rewrite skipn_skipn; f_equal; lia.
Qed.

Lemma from_app_l (s t : bytes) (i : Z) :
  i <= len s -> from (s ++ t) i = from s i ++ t.
Proof.
  intros H; unfold from, len in *; rewrite skipn_app.
  replace (Z.to_nat i - List.length s)%nat with O by lia; reflexivity.
Qed.

Lemma from_app_r (s t : bytes) (i : Z) :
  0 <= i -> from (s ++ t) (len s + i) = from t i.
Proof.
  intros H; unfold from, len; rewrite skipn_app.
  rewrite skipn_all2 by lia; simpl; f_equal; lia.
Qed.

Lemma from_app_len (s t : bytes) : from (s ++ t) (len s) = t.
Proof.
  replace (len s) with (len s + 0) by lia.
  rewrite from_app_r by lia; apply from_le0; lia.
Qed.

Lemma at_cons_0 (a : byte) (s : bytes) : at_ (a :: s) 0 = a.
Proof. reflexivity. Qed.

Lemma at_cons (a : byte) (s : bytes) (i : Z) :
  0 <= i -> at_ (a :: s) (i + 1) = at_ s i.
Proof.
  intros H; unfold at_.
  replace (Z.to_nat (i + 1)) with (S (Z.to_nat i)) by lia; reflexivity.
Qed.

Lemma at_from (s : bytes) (i j : Z) :
  0 <= i -> 0 <= j -> at_ (from s i) j = at_ s (i + j).
Proof.
  intros Hi Hj; unfold at_, from.
  rewrite nth_skipn; f_equal; lia.
Qed.

Lemma at_app_l (s t : bytes) (i : Z) :
  0 <= i < len s -> at_ (s ++ t) i = at_ s i.
Proof. intros H; unfold at_, len in *; apply app_nth1; lia. Qed.


Lemma from_at (s : bytes) (i : Z) :
  0 <= i < len s -> from s i = at_ s i :: from s (i + 1).
Proof.
  revert i; induction s as [|a s IH]; intros i H.
  - rewrite len_nil in H; lia.
  - rewrite len_cons in H.
    destruct (Z.eq_dec i 0) as [->|Hne].
    + rewrite from_le0 by lia. rewrite at_cons_0.
      change (0 + 1) with (0 + 1). rewrite (from_cons a s 0) by lia.
      rewrite from_le0 by lia; reflexivity.
    + replace i with ((i - 1) + 1) by lia.
      rewrite from_cons, at_cons by lia.
      replace (i - 1 + 1 + 1) with (i + 1) by lia.
      rewrite (from_cons a s i) by lia.
      rewrite IH by lia. do 2 f_equal; lia.
Qed.

Lemma upto_app_len (s t : bytes) : upto (s ++ t) (len s) = s.
Proof.
  unfold upto, len; rewrite Nat2Z.id, firstn_app, firstn_all.
  replace (List.length s - List.length s)%nat with O by lia.
  simpl; apply app_nil_r.
Qed.

Lemma upto_from (s : bytes) (i : Z) : upto s i ++ from s i = s.
Proof. unfold upto, from; apply firstn_skipn. Qed.

Lemma len_upto (s : bytes) (i : Z) : 0 <= i <= len s -> len (upto s i) = i.
Proof. intros H; unfold upto, len in *; rewrite length_firstn; lia. Qed.

Lemma slice_app (p t q : bytes) : slice (p ++ t ++ q) (len p) (len p + len t) = t.
Proof.
  unfold slice. rewrite from_app_len.
  replace (len p + len t - len p) with (len t) by lia. apply upto_app_len.
Qed.

(** ** HasPrefix, Index, IndexByte *)

Lemma beqb_eq (a b : byte) : Byte.eqb a b = true <-> a = b.
Proof. split; [apply Byte.byte_dec_bl | apply Byte.byte_dec_lb]. Qed.

Lemma beqb_neq (a b : byte) : Byte.eqb a b = false <-> a <> b.
Proof.
  split.
  - apply Byte.eqb_false.
  - intros H; destruct (Byte.eqb a b) eqn:E; [|reflexivity].
    apply beqb_eq in E; contradiction.
Qed.

Lemma HasPrefix_iff (s p : bytes) :
  HasPrefix s p = true <-> exists r, s = p ++ r.
Proof.
  revert s; induction p as [|b p IH]; intros s; simpl.
  - split; [intros _; exists s; reflexivity | reflexivity].
  - destruct s as [|a s]; simpl.
    + split; [discriminate | intros [r H]; discriminate].
    + rewrite andb_true_iff, beqb_eq, IH. split.
      * intros [-> [r ->]]; exists r; reflexivity.
      * intros [r H]; injection H as -> ->; split; [reflexivity | exists r; reflexivity].
Qed.

Lemma HasPrefix_app (p r : bytes) : HasPrefix (p ++ r) p = true.
Proof. apply HasPrefix_iff; exists r; reflexivity. Qed.

Lemma HasPrefix_len (s p : bytes) : HasPrefix s p = true -> len p <= len s.
Proof.
  intros H; apply HasPrefix_iff in H; destruct H as [r ->].
  rewrite len_app; pose proof (len_nonneg r); lia.
Qed.

Lemma HasPrefix_at (s p : bytes) (k : Z) :
  HasPrefix s p = true -> 0 <= k < len p -> at_ s k = at_ p k.
Proof.
  intros H Hk; apply HasPrefix_iff in H; destruct H as [r ->].
  apply at_app_l; lia.
Qed.

(** A prefix test only reads the first [len p] bytes. *)
Lemma HasPrefix_ext (s t p : bytes) :
  upto s (len p) = upto t (len p) -> HasPrefix s p = HasPrefix t p.
Proof.
  revert s t; induction p as [|b p IH]; intros s t H; simpl; [reflexivity|].
  unfold upto in H; rewrite len_cons in H.
  replace (Z.to_nat (len p + 1)) with (S (Z.to_nat (len p))) in H
    by (pose proof (len_nonneg p); lia).
  destruct s as [|a s], t as [|a' t]; simpl in H; try discriminate; [reflexivity|].
  injection H as -> H. f_equal. apply IH, H.
Qed.

Lemma upto_app_short (s t : bytes) (k : Z) :
  k <= len s -> upto (s ++ t) k = upto s k.
Proof.
  intros H; unfold upto, len in *; rewrite firstn_app.
  replace (Z.to_nat k - List.length s)%nat with O by lia.
  simpl; apply app_nil_r.
Qed.

Lemma HasPrefix_app_l (s t p : bytes) (i : Z) :
  0 <= i -> i + len p <= len s ->
  HasPrefix (from (s ++ t) i) p = HasPrefix (from s i) p.
Proof.
  intros Hi H. apply HasPrefix_ext.
  rewrite from_app_l by (pose proof (len_nonneg p); lia).
  apply upto_app_short. rewrite len_from by (pose proof (len_nonneg p); lia). lia.
Qed.

Lemma Index_range (s sep : bytes) :
  Index s sep = -1 \/ (0 <= Index s sep /\ Index s sep + len sep <= len s).
Proof.
  induction s as [|a s IH]; simpl.
  - destruct (HasPrefix [] sep) eqn:E; [|left; reflexivity].
    right; apply HasPrefix_len in E; lia.
  - destruct (HasPrefix (a :: s) sep) eqn:E.
    + right; apply HasPrefix_len in E; lia.
    + destruct (Index s sep =? -1) eqn:E1; [left; reflexivity|].
      apply Z.eqb_neq in E1. rewrite len_cons. right; lia.
Qed.

Lemma Index_found (s sep : bytes) :
  Index s sep <> -1 -> HasPrefix (from s (Index s sep)) sep = true.
Proof.
  induction s as [|a s IH]; simpl.
  - destruct (HasPrefix [] sep) eqn:E; [intros _; exact E | congruence].
  - destruct (HasPrefix (a :: s) sep) eqn:E; [intros _; exact E|].
    destruct (Index s sep =? -1) eqn:E1; [congruence|].
    apply Z.eqb_neq in E1. intros _.
    destruct (Index_range s sep) as [?|[? _]]; [contradiction|].
    rewrite from_cons by lia. apply IH, E1.
Qed.

(** No occurrence starts before the one [Index] reports. *)
Lemma Index_first (s sep : bytes) (j : Z) :
  0 <= j -> (Index s sep = -1 \/ j < Index s sep) ->
  HasPrefix (from s j) sep = false.
Proof.
  revert j; induction s as [|a s IH]; intros j Hj H; simpl in H.
  - rewrite from_ge by (rewrite len_nil; lia).
    destruct (HasPrefix [] sep) eqn:E; [lia | reflexivity].
  - destruct (HasPrefix (a :: s) sep) eqn:E; [lia|].
    destruct (Z.eq_dec j 0) as [->|Hne]; [rewrite from_le0 by lia; exact E|].
    replace j with ((j - 1) + 1) by lia. rewrite from_cons by lia.
    apply IH; [lia|].
    pose proof (Index_range s sep) as R.
    revert H; destruct (Index s sep =? -1) eqn:E1; intros H;
      [left; apply Z.eqb_eq, E1 | right; apply Z.eqb_neq in E1; lia].
Qed.

(** [Index] is the least offset at which [sep] occurs. *)
Lemma Index_unique (s sep : bytes) (i : Z) :
  0 <= i -> HasPrefix (from s i) sep = true ->
  (forall j, 0 <= j < i -> HasPrefix (from s j) sep = false) ->
  Index s sep = i.
Proof.
  intros Hi Hp Hmin.
  destruct (Z.eq_dec (Index s sep) (-1)) as [E|E].
  - rewrite (Index_first s sep i) in Hp by auto; discriminate.
  - destruct (Index_range s sep) as [?|[H0 _]]; [contradiction|].
    destruct (Z_lt_ge_dec i (Index s sep)).
    + rewrite (Index_first s sep i) in Hp by auto; discriminate.
    + destruct (Z.eq_dec (Index s sep) i) as [|Hne]; [assumption|].
      pose proof (Index_found s sep E) as F.
      rewrite Hmin in F by lia; discriminate.
Qed.

Lemma IndexByte_range (s : bytes) (c : byte) :
  IndexByte s c = -1 \/ (0 <= IndexByte s c < len s).
Proof.
  induction s as [|a s IH]; simpl; [left; reflexivity|].
  rewrite len_cons. pose proof (len_nonneg s).
  destruct (Byte.eqb a c); [right; lia|].
  destruct (IndexByte s c =? -1) eqn:E; [left; reflexivity|].
  apply Z.eqb_neq in E; right; lia.
Qed.

Lemma IndexByte_found (s : bytes) (c : byte) :
  IndexByte s c <> -1 -> at_ s (IndexByte s c) = c.
Proof.
  induction s as [|a s IH]; simpl; [congruence|].
  destruct (Byte.eqb a c) eqn:E; [intros _; apply beqb_eq, E|].
  destruct (IndexByte s c =? -1) eqn:E1; [congruence|].
  apply Z.eqb_neq in E1; intros _.
  destruct (IndexByte_range s c) as [?|[? _]]; [contradiction|].
  rewrite at_cons by lia. apply IH, E1.
Qed.

Lemma IndexByte_first (s : bytes) (c : byte) (j : Z) :
  0 <= j < len s -> (IndexByte s c = -1 \/ j < IndexByte s c) ->
  at_ s j <> c.
Proof.
  revert j; induction s as [|a s IH]; intros j Hj H; simpl in H.
  - rewrite len_nil in Hj; lia.
  - rewrite len_cons in Hj.
    destruct (Byte.eqb a c) eqn:E; [lia|].
    destruct (Z.eq_dec j 0) as [->|Hne]; [apply beqb_neq, E|].
    replace j with ((j - 1) + 1) by lia. rewrite at_cons by lia.
    apply IH; [lia|].
    pose proof (IndexByte_range s c) as R.
    revert H; destruct (IndexByte s c =? -1) eqn:E1; intros H;
      [left; apply Z.eqb_eq, E1 | right; apply Z.eqb_neq in E1; lia].
Qed.

Lemma IndexByte_unique (s : bytes) (c : byte) (i : Z) :
  0 <= i < len s -> at_ s i = c ->
  (forall j, 0 <= j < i -> at_ s j <> c) ->
  IndexByte s c = i.
Proof.
  intros Hi Hc Hmin.
  destruct (Z.eq_dec (IndexByte s c) (-1)) as [E|E].
  - exfalso; apply (IndexByte_first s c i); auto.
  - destruct (IndexByte_range s c) as [?|[H0 H1]]; [contradiction|].
    destruct (Z_lt_ge_dec i (IndexByte s c)).
    + exfalso; apply (IndexByte_first s c i); auto.
    + destruct (Z.eq_dec (IndexByte s c) i) as [|Hne]; [assumption|].
      exfalso; apply (Hmin (IndexByte s c)); [lia | apply IndexByte_found, E].
Qed.

(** ** scanHeader *)

Lemma Index_split (s sep : bytes) :
  Index s sep <> -1 ->
  s = upto s (Index s sep) ++ sep ++ from s (Index s sep + len sep).
Proof.
  intros H. pose proof (Index_found s sep H) as F.
  destruct (Index_range s sep) as [?|[H0 H1]]; [contradiction|].
  apply HasPrefix_iff in F; destruct F as [r F].
  rewrite <- (upto_from s (Index s sep)) at 1. f_equal.
  rewrite F. f_equal.
  rewrite <- (from_from s) by (pose proof (len_nonneg sep); lia).
  rewrite F. symmetry; apply from_app_len.
Qed.

Lemma upto_add (s : bytes) (i k : Z) :
  0 <= i -> 0 <= k -> upto s (i + k) = upto s i ++ upto (from s i) k.
Proof.
  intros Hi Hk. unfold upto, from.
  replace (Z.to_nat (i + k)) with (Z.to_nat i + Z.to_nat k)%nat by lia.
  generalize (Z.to_nat i) as n, (Z.to_nat k) as m. clear.
  intros n m; revert s; induction n as [|n IH]; intros s; [reflexivity|].
  destruct s as [|a s]; simpl.
  - rewrite firstn_nil; reflexivity.
  - f_equal; apply IH.
Qed.

(** C9, as the code has it.  For a non-empty buffer: at end of input the
    whole buffer is consumed and returned, whether or not it holds three
    consecutive line breaks; before end of input, a buffer without the
    marker asks for more data, and a buffer with it yields everything up to
    and including its first occurrence. *)
Theorem scanHeader_cases (data : bytes) (atEOF : bool) :
  data <> [] ->
  (atEOF = true ->
     scanHeader data atEOF = mkRes (len data) (Some data) None) /\
  (atEOF = false -> Index data marker = -1 ->
     scanHeader data atEOF = needMoreData) /\
  (atEOF = false -> Index data marker <> -1 ->
     exists pre post,
       data = pre ++ marker ++ post /\
       (forall j, 0 <= j < len pre -> HasPrefix (from data j) marker = false) /\
       scanHeader data atEOF = mkRes (len pre + 3) (Some (pre ++ marker)) None).
Proof.
  intros Hne.
  assert (L : (len data =? 0) = false).
  { apply Z.eqb_neq; intros E; apply Hne, len_zero, E. }
  unfold scanHeader; rewrite L; cbn [andb negb].
  fold marker. split; [|split].
  - intros ->. rewrite andb_false_r. reflexivity.
  - intros -> ->. reflexivity.
  - intros -> H.
    destruct (Index_range data marker) as [?|[H0 H1]]; [contradiction|].
    apply Z.eqb_neq in H as E; rewrite E; cbn [andb negb].
    exists (upto data (Index data marker)), (from data (Index data marker + len marker)).
    assert (Lm : len marker = 3) by reflexivity.
    assert (Lp : len (upto data (Index data marker)) = Index data marker)
      by (apply len_upto; lia).
    split; [apply Index_split, H|]. split.
    + intros j Hj. apply Index_first; lia.
    + rewrite Lp. do 2 f_equal.
      rewrite upto_add by lia. f_equal.
      pose proof (Index_found data marker H) as F.
      apply HasPrefix_iff in F; destruct F as [r F]. rewrite F.
      change 3 with (len marker). apply upto_app_len.
Qed.

Lemma scanHeader_cases_witness :
  let data := unlines ["A: 1"; EmptyString; EmptyString; "B: 2"] in
  data <> [] /\
  exists pre post,
    data = pre ++ marker ++ post /\
    (forall j, 0 <= j < len pre -> HasPrefix (from data j) marker = false) /\
    scanHeader data false = mkRes (len pre + 3) (Some (pre ++ marker)) None.
Proof.
  intros data.
  assert (Hne : data <> []) by discriminate.
  split; [exact Hne|].
  apply (scanHeader_cases data false Hne); [reflexivity | discriminate].
Defined.

(** C9 as stated fails: at end of input a buffer that holds the marker and
    more after it is returned whole, not cut after the marker. *)
Lemma scanHeader_marker_at_eof :
  let data := unlines ["A: 1"; EmptyString; EmptyString; "B: 2"] in
  Index data marker = 4 /\
  scanHeader data true = mkRes (len data) (Some data) None /\
  scanHeader data true <> mkRes (4 + 3) (Some (upto data (4 + 3))) None.
Proof. repeat split; discriminate. Qed.

(** ** The pull iterator *)

Section IteratorFacts.

Variable split : SplitFunc.
Variable ReadMessage : MessageDecoder.

Local Abbreviation Next := (Mbox.Next split ReadMessage).
Local Abbreviation nexts := (Mbox.nexts split ReadMessage).

Lemma Next_after_error (sc : Mbox.Scanner) (e : error) :
  Mbox.merr sc = Some e ->
  Next sc = (false, Mbox.mkScanner (Mbox.s sc) None (Mbox.curByte sc) (Some e)).
Proof. intros H; unfold Mbox.Next; rewrite H; reflexivity. Qed.

(** C6.  Once the error field is set, every further call of [Next] returns
    false and leaves the underlying scanner and the byte counter as they
    are (no split, no decoding), [Err] keeps returning that error and
    [Message] returns nil. *)
Theorem error_is_sticky (sc : Mbox.Scanner) (e : error) (n : nat) :
  Mbox.merr sc = Some e ->
  fst (nexts n sc) = repeat false n /\
  Mbox.Err (snd (nexts n sc)) = Some e /\
  Mbox.Message (snd (nexts n sc)) = None /\
  Mbox.s (snd (nexts n sc)) = Mbox.s sc /\
  Mbox.Location (snd (nexts n sc)) = Mbox.Location sc.
Proof.
  revert sc; induction n as [|n IH]; intros sc H.
  - simpl. unfold Mbox.Err, Mbox.Message. rewrite H. auto.
  - simpl. rewrite (Next_after_error sc e H).
    specialize (IH (Mbox.mkScanner (Mbox.s sc) None (Mbox.curByte sc) (Some e)) eq_refl).
    destruct (Mbox.nexts split ReadMessage n _) as [oks sc'] eqn:E.
    simpl in *. destruct IH as (-> & ? & ? & ? & ?). auto.
Qed.

(** C8, as the code has it.  [Next] adds to the counter the length of the
    token [Scan] produced, whether or not the token then decodes; a call
    that produces no token leaves the counter as it is. *)
Theorem Location_counts_token_bytes (sc : Mbox.Scanner) :
  match Mbox.merr sc, Scan split (Mbox.s sc) with
  | None, (true, b') =>
      Mbox.Location (snd (Next sc)) = Mbox.Location sc + len (Bytes b') /\
      (fst (Next sc) = true <-> exists msg, ReadMessage (Bytes b') = inl msg)
  | _, _ =>
      Mbox.Location (snd (Next sc)) = Mbox.Location sc /\ fst (Next sc) = false
  end.
Proof.
  unfold Mbox.Next, Mbox.Location, Bytes.
  destruct (Mbox.merr sc); [simpl; auto|].
  destruct (Scan split (Mbox.s sc)) as [[|] b']; [|simpl; auto].
  destruct (ReadMessage _) as [msg|x]; simpl; split; auto.
  - split; [intros _; exists msg; reflexivity | reflexivity].
  - split; [discriminate | intros [msg H]; discriminate].
Qed.

End IteratorFacts.

Lemma error_is_sticky_witness :
  let sc := Mbox.mkScanner (newBufScanner [B "x"]) None 0 (Some ErrInvalidMboxFormat) in
  fst (Mbox.nexts scanHeader Textproto.ReadMessage 3 sc) = [false; false; false] /\
  Mbox.Err (snd (Mbox.nexts scanHeader Textproto.ReadMessage 3 sc))
    = Some ErrInvalidMboxFormat.
Proof.
  intros sc.
  destruct (error_is_sticky scanHeader Textproto.ReadMessage sc ErrInvalidMboxFormat 3 eq_refl)
    as (H1 & H2 & _).
  split; [exact H1 | exact H2].
Defined.

(** ** Separator candidates *)

Lemma yearSuffix_iff (data : bytes) (n : Z) :
  yearSuffix data n = true <-> yearBefore data n.
Proof.
  unfold yearSuffix, yearBefore.
  rewrite !andb_true_iff, orb_true_iff, !beqb_eq. tauto.
Qed.

Lemma IndexByte_from (data : bytes) (i : Z) (c : byte) :
  0 <= i -> IndexByte (from data i) c <> -1 ->
  0 <= IndexByte (from data i) c /\
  i + IndexByte (from data i) c < len data /\
  at_ data (i + IndexByte (from data i) c) = c /\
  forall k, i <= k < i + IndexByte (from data i) c -> at_ data k <> c.
Proof.
  intros Hi H.
  destruct (IndexByte_range (from data i) c) as [?|[H0 H1]]; [contradiction|].
  assert (Hl : i <= len data).
  { destruct (Z_le_gt_dec i (len data)); [assumption|].
    rewrite from_ge in H0, H1 by lia. rewrite len_nil in H1; lia. }
  rewrite len_from in H1 by lia.
  repeat split; try lia.
  - rewrite <- at_from by lia. apply IndexByte_found, H.
  - intros k Hk. replace k with (i + (k - i)) by lia.
    rewrite <- at_from by lia. apply IndexByte_first.
    + rewrite len_from by lia; lia.
    + right; lia.
Qed.

Lemma IndexByte_from_none (data : bytes) (i k : Z) (c : byte) :
  0 <= i -> IndexByte (from data i) c = -1 -> i <= k < len data -> at_ data k <> c.
Proof.
  intros Hi H Hk. replace k with (i + (k - i)) by lia.
  rewrite <- at_from by lia. apply IndexByte_first.
  - rewrite len_from by lia; lia.
  - left; exact H.
Qed.

Lemma Index_from (data sep : bytes) (i : Z) :
  0 <= i -> Index (from data i) sep <> -1 ->
  0 <= Index (from data i) sep /\
  HasPrefix (from data (i + Index (from data i) sep)) sep = true /\
  forall k, i <= k < i + Index (from data i) sep -> HasPrefix (from data k) sep = false.
Proof.
  intros Hi H.
  destruct (Index_range (from data i) sep) as [?|[H0 H1]]; [contradiction|].
  repeat split; try lia.
  - rewrite <- from_from by lia. apply Index_found, H.
  - intros k Hk. replace k with (i + (k - i)) by lia.
    rewrite <- from_from by lia. apply Index_first; [lia | right; lia].
Qed.

Lemma Index_from_none (data sep : bytes) (i k : Z) :
  0 <= i -> Index (from data i) sep = -1 -> i <= k ->
  HasPrefix (from data k) sep = false.
Proof.
  intros Hi H Hk. replace k with (i + (k - i)) by lia.
  rewrite <- from_from by lia. apply Index_first; [lia | left; exact H].
Qed.

Lemma HasPrefix_cons_at (s p : bytes) (b : byte) :
  HasPrefix s (b :: p) = true -> at_ s 0 = b /\ HasPrefix (from s 1) p = true.
Proof.
  destruct s as [|a s]; simpl; [discriminate|].
  rewrite andb_true_iff, beqb_eq. intros [-> H]. split; [reflexivity|].
  change 1 with (0 + 1). rewrite from_cons by lia. rewrite from_le0 by lia. exact H.
Qed.

Lemma nlFrom_at (data : bytes) (s : Z) :
  0 <= s -> HasPrefix (from data s) nlFrom = true ->
  at_ data s = LF /\ HasPrefix (from data (s + 1)) (B "From ") = true /\
  s + 6 <= len data.
Proof.
  intros Hs H. pose proof (HasPrefix_len _ _ H) as L.
  assert (Hl : s <= len data).
  { destruct (Z_le_gt_dec s (len data)); [assumption|].
    rewrite from_ge in L by lia. change (len nlFrom) with 6 in L.
    rewrite len_nil in L; lia. }
  rewrite len_from in L by lia. change (len nlFrom) with 6 in L.
  apply HasPrefix_cons_at in H. destruct H as [H1 H2].
  rewrite at_from in H1 by lia. rewrite from_from in H2 by lia.
  rewrite Z.add_0_r in H1. auto with zarith.
Qed.

(** The bytes of [From ] are no line breaks. *)
Lemma From_no_break (data : bytes) (i k : Z) :
  0 <= i -> HasPrefix (from data i) (B "From ") = true ->
  i <= k < i + 5 -> at_ data k <> LF.
Proof.
  intros Hi H Hk.
  replace k with (i + (k - i)) by lia. rewrite <- at_from by lia.
  rewrite (HasPrefix_at _ _ (k - i) H) by (change (len (B "From ")) with 5; lia).
  assert (C : k - i = 0 \/ k - i = 1 \/ k - i = 2 \/ k - i = 3 \/ k - i = 4) by lia.
  destruct C as [-> | [-> | [-> | [-> | ->]]]]; discriminate.
Qed.

Lemma From_not_LF (data : bytes) :
  HasPrefix data (B "From ") = true -> at_ data 0 <> LF.
Proof.
  intros H. apply (From_no_break data 0 0); [lia | rewrite from_le0 by lia; exact H | lia].
Qed.

Lemma candidate_bounds (data : bytes) (s e : Z) :
  candidate data s e -> 0 <= s /\ s + 6 <= e /\ e <= len data.
Proof.
  intros (F & (L1 & L2 & L3) & _).
  assert (P : 0 <= s /\ forall k, s < k < s + 5 -> at_ data k <> LF).
  { destruct F as [[-> H] | [Hs H]].
    - split; [lia|]. intros k Hk.
      apply (From_no_break data 0 k); [lia | rewrite from_le0 by lia; exact H | lia].
    - split; [lia|]. intros k Hk. apply nlFrom_at in H; [|lia].
      destruct H as (_ & H & _).
      apply (From_no_break data (s + 1) k); [lia | exact H | lia]. }
  destruct P as [P0 P1]. repeat split; try lia.
  destruct (Z_le_gt_dec (s + 6) e); [assumption|].
  exfalso. apply (P1 (e - 1)); [lia | exact L2].
Qed.

(** ** findFroms of the current variant *)

(** What one pass of the loop establishes, for a [curPos] that is 0 or the
    offset of a line break. *)
Lemma cur_step_spec (data : bytes) (curPos : Z) :
  0 <= curPos -> (curPos = 0 \/ at_ data curPos = LF) ->
  match Current.findFromsStep data curPos with
  | inl (s, e) =>
      (s = -1 /\ e = -1 /\
       forall s' e', candidate data s' e' -> curPos <= s' -> False) \/
      (curPos <= s /\ candidate data s e /\
       forall s' e', candidate data s' e' -> curPos <= s' -> s <= s')
  | inr c =>
      curPos < c < len data /\ at_ data c = LF /\
      forall s' e', candidate data s' e' -> curPos <= s' -> c <= s'
  end.
Proof.
  intros H0 Inv. unfold Current.findFromsStep.
  set (rel := if HasPrefix (from data curPos) (B "From ") then 0
              else Index (from data curPos) nlFrom).
  (* the first From line at or after curPos *)
  assert (R : rel = -1 /\ (forall s', fromLineAt data s' -> curPos <= s' -> False)
              \/ 0 <= rel /\ fromLineAt data (rel + curPos) /\
                 forall s', fromLineAt data s' -> curPos <= s' -> rel + curPos <= s').
  { subst rel. destruct (HasPrefix (from data curPos) (B "From ")) eqn:P.
    - right. assert (curPos = 0) as ->.
      { destruct Inv as [|I]; [assumption|]. exfalso.
        apply (From_no_break data curPos curPos); auto; lia. }
      rewrite from_le0 in P by lia.
      split; [lia|]. split; [left; auto|].
      intros s' _ ?; lia.
    - destruct (Z.eq_dec (Index (from data curPos) nlFrom) (-1)) as [E|E].
      + left. split; [exact E|]. intros s' [[-> F]|[Hs F]] Hle.
        * assert (curPos = 0) as -> by lia.
          rewrite from_le0 in P by lia. congruence.
        * rewrite (Index_from_none data nlFrom curPos s') in F by auto. discriminate.
      + right. destruct (Index_from data nlFrom curPos H0 E) as (I0 & I1 & I2).
        split; [exact I0|]. split.
        * right. split; [lia|]. rewrite Z.add_comm. exact I1.
        * intros s' [[-> F]|[Hs F]] Hle.
          -- assert (curPos = 0) as -> by lia.
             rewrite from_le0 in P by lia. congruence.
          -- destruct (Z_le_gt_dec (Index (from data curPos) nlFrom + curPos) s');
               [assumption|].
             rewrite I2 in F by lia. discriminate. }
  destruct R as [[-> R]|(R0 & R1 & R2)].
  - simpl. left. repeat split; try reflexivity.
    intros s' e' (F & _) Hle. exact (R s' F Hle).
  - assert (E : (rel =? -1) = false) by (apply Z.eqb_neq; lia).
    rewrite E. set (fromPos := rel + curPos) in *.
    (* a candidate at or after curPos starts at fromPos or later *)
    assert (M : forall s' e', candidate data s' e' -> curPos <= s' -> fromPos <= s').
    { intros s' e' (F & _) Hle. exact (R2 s' F Hle). }
    destruct (Z.eq_dec (IndexByte (from data (fromPos + 1)) LF) (-1)) as [N|N].
    + rewrite N. simpl. left. repeat split; try reflexivity.
      intros s' e' C Hle. pose proof (M s' e' C Hle) as Hs.
      destruct C as (_ & (L1 & L2 & _) & _).
      apply (IndexByte_from_none data (fromPos + 1) (e' - 1) LF); auto; lia.
    + apply Z.eqb_neq in N as N'. rewrite N'. apply Z.eqb_neq in N'.
      destruct (IndexByte_from data (fromPos + 1) LF) as (B0 & B1 & B2 & B3); [lia|exact N|].
      set (nextLine := IndexByte (from data (fromPos + 1)) LF + (fromPos + 1)) in *.
      replace (fromPos + 1 + IndexByte (from data (fromPos + 1)) LF)
        with nextLine in * by (subst nextLine; lia).
      assert (FB : firstBreakAfter data fromPos nextLine).
      { repeat split; [subst nextLine; lia | lia | exact B2 |].
        intros k Hk. apply B3. lia. }
      destruct (yearSuffix data nextLine) eqn:Y.
      * right. split; [subst fromPos; lia|]. split.
        -- split; [exact R1|]. replace (nextLine + 1 - 1) with nextLine by lia.
           split; [exact FB | apply yearSuffix_iff, Y].
        -- exact M.
      * split; [subst nextLine fromPos; lia|]. split; [exact B2|].
        intros s' e' C Hle. pose proof (M s' e' C Hle) as Hs.
        destruct (Z_le_gt_dec nextLine s'); [assumption|]. exfalso.
        destruct C as (F & (L1 & L2 & L3) & Yr).
        destruct (Z.eq_dec s' fromPos) as [->|Hne].
        -- (* the same line: its year fails *)
           assert (e' - 1 = nextLine).
           { destruct FB as (F1 & F2 & F3).
             destruct (Z_lt_ge_dec (e' - 1) nextLine) as [Hlt|Hge].
             - exfalso; apply (F3 (e' - 1)); [lia | exact L2].
             - destruct (Z.eq_dec (e' - 1) nextLine); [assumption|].
               exfalso; apply (L3 nextLine); [lia | exact F2]. }
           apply yearSuffix_iff in Yr. congruence.
        -- (* a later line starts at a line break before nextLine *)
           destruct F as [[-> _]|[_ F]]; [lia|].
           apply nlFrom_at in F; [|lia]. destruct F as (F & _).
           destruct FB as (_ & _ & F3). apply (F3 s'); [lia | exact F].
Qed.

Lemma cur_loop_spec (fuel : nat) (data : bytes) (curPos : Z) :
  0 <= curPos -> (curPos = 0 \/ at_ data curPos = LF) ->
  len data - curPos < Z.of_nat fuel ->
  exists s e,
    Current.findFromsLoop fuel data curPos = Some (s, e) /\
    ((s = -1 /\ e = -1 /\
      forall s' e', candidate data s' e' -> curPos <= s' -> False) \/
     (curPos <= s /\ candidate data s e /\
      forall s' e', candidate data s' e' -> curPos <= s' -> s <= s')).
Proof.
  revert curPos; induction fuel as [|fuel IH]; intros curPos H0 Inv Hf.
  - pose proof (len_nonneg data).
    destruct (Z_le_gt_dec curPos (len data)); [lia|].
    (* curPos past the end cannot happen with no fuel: the step is not run *)
    exfalso. destruct Inv as [->|I]; [lia|].
    unfold at_ in I. rewrite nth_overflow in I by (unfold len in *; lia).
    discriminate.
  - simpl. pose proof (cur_step_spec data curPos H0 Inv) as S.
    destruct (Current.findFromsStep data curPos) as [[s e]|c].
    + exists s, e. split; [reflexivity | exact S].
    + destruct S as (S1 & S2 & S3).
      destruct (IH c) as (s & e & E & D); [lia | right; exact S2 | lia |].
      exists s, e. split; [exact E|].
      destruct D as [(-> & -> & D)|(D1 & D2 & D3)].
      * left. repeat split; try reflexivity.
        intros s' e' C Hle. apply (D s' e' C). apply (S3 s' e' C Hle).
      * right. split; [lia|]. split; [exact D2|].
        intros s' e' C Hle. apply (D3 s' e' C). apply (S3 s' e' C Hle).
Qed.

(** [findFroms] never runs out of fuel, and reports the first candidate of
    the buffer, or [(-1, -1)] when there is none. *)
Lemma cur_findFroms_spec (data : bytes) :
  exists s e,
    Current.findFromsLoop (S (List.length data)) data 0 = Some (s, e) /\
    Current.findFroms data = (s, e) /\
    ((s = -1 /\ e = -1 /\ forall s' e', ~ candidate data s' e') \/
     (candidate data s e /\ forall s' e', candidate data s' e' -> s <= s')).
Proof.
  destruct (cur_loop_spec (S (List.length data)) data 0) as (s & e & E & D);
    [lia | left; reflexivity | unfold len; lia |].
  exists s, e. split; [exact E|]. split; [unfold Current.findFroms; rewrite E; reflexivity|].
  destruct D as [(-> & -> & D)|(D1 & D2 & D3)].
  - left. repeat split; try reflexivity. intros s' e' C.
    apply (D s' e' C). apply candidate_bounds in C; lia.
  - right. split; [exact D2|]. intros s' e' C.
    apply (D3 s' e' C). apply candidate_bounds in C; lia.
Qed.

Lemma cur_findFroms_sound (data : bytes) (s e : Z) :
  Current.findFroms data = (s, e) -> s <> -1 -> candidate data s e.
Proof.
  intros H Hs. destruct (cur_findFroms_spec data) as (s0 & e0 & _ & E & D).
  rewrite H in E; injection E as <- <-.
  destruct D as [(? & _)|(C & _)]; [contradiction | exact C].
Qed.

Lemma cur_findFroms_none (data : bytes) (s e : Z) :
  Current.findFroms data = (s, e) -> s = -1 \/ e = -1 ->
  s = -1 /\ e = -1 /\ forall s' e', ~ candidate data s' e'.
Proof.
  intros H Hs. destruct (cur_findFroms_spec data) as (s0 & e0 & _ & E & D).
  rewrite H in E; injection E as <- <-.
  destruct D as [D|(C & _)]; [exact D|].
  apply candidate_bounds in C. lia.
Qed.


(** ** findFroms of the list variant *)





(** ** scanMessage of the current variant *)

Section CurrentSplit.

Variable rd : HeaderDecoder.

Lemma cur_scanStep_cases (data : bytes) (atEOF : bool) (end_ curEnd : Z) :
  0 <= curEnd <= len data ->
  match Current.scanStep rd data atEOF end_ curEnd with
  | inl r =>
      r = needMoreData \/
      (atEOF = true /\ r = mkRes (len data) (Some (from data end_)) None /\
       forall s e, ~ candidate (from data curEnd) s e) \/
      acceptedAt rd data end_ curEnd r
  | inr c => curEnd < c <= len data /\ rejectedAt rd data curEnd c
  end.
Proof.
  intros Hc. unfold Current.scanStep.
  destruct (Current.findFroms (from data curEnd)) as [ps pe] eqn:F.
  destruct ((ps =? -1) || (pe =? -1)) eqn:E.
  - apply orb_true_iff in E. rewrite !Z.eqb_eq in E.
    destruct (cur_findFroms_none _ _ _ F E) as (_ & _ & N).
    destruct atEOF; [right; left; auto | left; reflexivity].
  - apply orb_false_iff in E. rewrite !Z.eqb_neq in E. destruct E as [E1 E2].
    pose proof (cur_findFroms_sound _ _ _ F E1) as C.
    pose proof (candidate_bounds _ _ _ C) as Bd.
    rewrite len_from in Bd by lia.
    destruct (Index (from data (pe + curEnd)) [LF; LF] =? -1) eqn:I;
      [left; reflexivity|].
    apply Z.eqb_neq in I.
    destruct (rd (from data (pe + curEnd))) as [h [x|]] eqn:R.
    + split; [lia|]. exists ps, pe. rewrite R. simpl.
      split; [exact F|]. split; [exact C|]. split; [reflexivity|].
      split; [exact I|]. left; discriminate.
    + destruct (headerLen h <? 2) eqn:L.
      * apply Z.ltb_lt in L. split; [lia|]. exists ps, pe. rewrite R. simpl.
        split; [exact F|]. split; [exact C|]. split; [reflexivity|].
        split; [exact I|]. right; exact L.
      * apply Z.ltb_ge in L. right; right. exists ps, pe, h.
        split; [exact F|]. split; [exact C|]. split; [exact I|].
        split; [exact R|]. split; [exact L | reflexivity].
Qed.

(** The loop returns with the fuel [scanMessage] gives it; its result is a
    request for more data, the rest of the buffer at end of input, or a cut
    before an accepted candidate. *)
Lemma cur_scanLoop_spec (fuel : nat) (data : bytes) (atEOF : bool) (end_ curEnd : Z) :
  1 <= curEnd <= len data -> at_ data (curEnd - 1) = LF ->
  len data - curEnd < Z.of_nat fuel ->
  exists r,
    Current.scanLoop rd fuel data atEOF end_ curEnd = Some r /\
    (r = needMoreData \/
     (atEOF = true /\ r = mkRes (len data) (Some (from data end_)) None) \/
     exists c, curEnd <= c <= len data /\ at_ data (c - 1) = LF /\
               acceptedAt rd data end_ c r).
Proof.
  revert curEnd; induction fuel as [|fuel IH]; intros curEnd Hc Hl Hf; [lia|].
  simpl. pose proof (cur_scanStep_cases data atEOF end_ curEnd ltac:(lia)) as S.
  destruct (Current.scanStep rd data atEOF end_ curEnd) as [r|c].
  - exists r. split; [reflexivity|].
    destruct S as [S|[(S1 & S2 & _)|S]]; [auto | auto |].
    right; right. exists curEnd. split; [lia | auto].
  - destruct S as [S (ps & pe & _ & C & -> & _)].
    assert (Hl' : at_ data (pe + curEnd - 1) = LF).
    { destruct C as (_ & (L1 & L2 & _) & _).
      rewrite at_from in L2 by lia.
      replace (curEnd + (pe - 1)) with (pe + curEnd - 1) in L2 by lia. exact L2. }
    destruct (IH (pe + curEnd)) as (r & E & D); [lia | exact Hl' | lia |].
    exists r. split; [exact E|].
    destruct D as [D|[D|(c' & D1 & D2)]]; [auto | auto |].
    right; right. exists c'. split; [lia | exact D2].
Qed.

(** What [scanMessage] returns. *)
Lemma cur_scanMessage_cases (data : bytes) (atEOF : bool) :
  let r := Current.scanMessage rd data atEOF in
  let end_ := snd (Current.findFroms data) in
  r = needMoreData \/
  (atEOF = true /\ r = mkRes (len data) None None /\
   forall s e, ~ candidate data s e) \/
  (atEOF = true /\ fst (Current.findFroms data) <> -1 /\
   r = mkRes (len data) (Some (from data end_)) None) \/
  (fst (Current.findFroms data) <> -1 /\
   exists c, end_ <= c <= len data /\ at_ data (c - 1) = LF /\
             acceptedAt rd data end_ c r).
Proof.
  intros r end_. subst r end_. unfold Current.scanMessage.
  destruct ((len data =? 0) && atEOF) eqn:E0; [left; reflexivity|].
  destruct (Current.findFroms data) as [s e] eqn:F. simpl snd; simpl fst.
  destruct ((s =? -1) || (e =? -1)) eqn:E.
  - apply orb_true_iff in E. rewrite !Z.eqb_eq in E.
    destruct (cur_findFroms_none _ _ _ F E) as (_ & _ & N).
    destruct atEOF; [right; left; auto | left; reflexivity].
  - apply orb_false_iff in E. rewrite !Z.eqb_neq in E. destruct E as [E1 E2].
    pose proof (cur_findFroms_sound _ _ _ F E1) as C.
    pose proof (candidate_bounds _ _ _ C) as Bd.
    assert (Hl : at_ data (e - 1) = LF) by (destruct C as (_ & (_ & L & _) & _); exact L).
    destruct (cur_scanLoop_spec (S (List.length data)) data atEOF e e) as (r & L & D);
      [lia | exact Hl | unfold len; lia |].
    rewrite L.
    destruct D as [D|[[D1 D2]|D]]; [auto | right; right; left; auto |].
    right; right; right. auto.
Qed.


End CurrentSplit.



Lemma re_FindIndex_zero (data : bytes) :
  Regex.FindIndex data = 0 -> Regex.matchAt data = true.
Proof.
  destruct data as [|a data]; simpl.
  - destruct (Regex.matchAt []); [reflexivity | discriminate].
  - destruct (Regex.matchAt (a :: data)); [reflexivity|].
    destruct (Regex.FindIndex data =? -1) eqn:E; [discriminate|].
    apply Z.eqb_neq in E. lia.
Qed.

Lemma re_FindIndex_From (data : bytes) :
  HasPrefix data (B "From ") = true -> Regex.FindIndex data <> 0.
Proof.
  intros H E. apply re_FindIndex_zero in E. unfold Regex.matchAt in E.
  apply andb_true_iff in E. destruct E as [E _].
  apply HasPrefix_cons_at in E. destruct E as [E _].
  apply (From_not_LF data H E).
Qed.




(** C8 as stated fails: after the first successful [Next] on a one-message
    archive the counter holds the 16 bytes of the token, while the scanner
    consumed all 28 bytes of the input (nothing is left in the buffer or in
    the reader). *)
Lemma Location_is_not_bytes_consumed :
  let archive := unlines ["From a 2015"; "A: 1"; "B: 2"; EmptyString; "Body"] in
  let split := Current.scanMessage Textproto.ReadMIMEHeader in
  let r := Mbox.Next split Textproto.ReadMessage (Mbox.NewScanner [archive]) in
  len archive = 28 /\
  fst r = true /\
  Mbox.Location (snd r) = 16 /\
  sbuf (Mbox.s (snd r)) = [] /\
  ssrc (Mbox.s (snd r)) = [].
Proof. repeat split; reflexivity. Qed.

(** ** Candidates under appending and slicing *)

Lemma yearBefore_ext (d d' : bytes) (n n' : Z) :
  (forall k, 1 <= k <= 4 -> at_ d (n - k) = at_ d' (n' - k)) ->
  yearBefore d n -> yearBefore d' n'.
Proof.
  intros H (Y1 & Y2 & Y3 & Y4). unfold yearBefore.
  rewrite <- !H by lia. auto.
Qed.

Lemma candidate_app (data q : bytes) (s e : Z) :
  candidate data s e -> candidate (data ++ q) s e.
Proof.
  intros C. pose proof (candidate_bounds _ _ _ C) as Bd.
  destruct C as (F & (L1 & L2 & L3) & Y). split; [|split].
  - destruct F as [[-> P]|[Hs P]].
    + left. split; [reflexivity|]. apply HasPrefix_iff in P. destruct P as [r ->].
      rewrite <- app_assoc. apply HasPrefix_app.
    + right. split; [exact Hs|]. rewrite from_app_l by lia.
      apply HasPrefix_iff in P. destruct P as [r ->].
      rewrite <- app_assoc. apply HasPrefix_app.
  - split; [rewrite len_app; pose proof (len_nonneg q); lia|]. split.
    + rewrite at_app_l by lia. exact L2.
    + intros k Hk. rewrite at_app_l by lia. apply L3, Hk.
  - apply (yearBefore_ext data _ (e - 1) (e - 1)); [|exact Y].
    intros k Hk. rewrite at_app_l by lia. reflexivity.
Qed.


Lemma firstBreakAfter_unique (data : bytes) (s n n' : Z) :
  firstBreakAfter data s n -> firstBreakAfter data s n' -> n = n'.
Proof.
  intros (A1 & A2 & A3) (B1 & B2 & B3).
  destruct (Z_lt_ge_dec n n'); [exfalso; apply (B3 n); [lia | exact A2]|].
  destruct (Z.eq_dec n n'); [assumption|].
  exfalso; apply (A3 n'); [lia | exact B2].
Qed.

Lemma candidate_mono (data : bytes) (s e s2 e2 : Z) :
  candidate data s e -> candidate data s2 e2 -> s <= s2 -> e <= e2.
Proof.
  intros (_ & (A1 & A2 & A3) & _) (_ & (B1 & B2 & B3) & _) H.
  destruct (Z_le_gt_dec e e2); [assumption|].
  exfalso. apply (A3 (e2 - 1)); [lia | exact B2].
Qed.


Lemma HasPrefix_cons_same (a : byte) (s p : bytes) :
  HasPrefix (a :: s) (a :: p) = HasPrefix s p.
Proof. simpl. rewrite (Byte.byte_dec_lb eq_refl). reflexivity. Qed.

(** A candidate of [data[c:]], where [c] is a line start, is one of
    [data]. *)
Lemma candidate_from (data : bytes) (c ps pe : Z) :
  0 <= c <= len data -> (c = 0 \/ at_ data (c - 1) = LF) ->
  candidate (from data c) ps pe ->
  exists s, candidate data s (pe + c) /\ c - 1 <= s <= ps + c /\ 0 <= s.
Proof.
  intros Hc Hl C. pose proof (candidate_bounds _ _ _ C) as Bd.
  rewrite len_from in Bd by lia.
  destruct C as (F & (L1 & L2 & L3) & Y).
  rewrite len_from in L1 by lia.
  assert (Hat : forall k, 0 <= k -> at_ (from data c) k = at_ data (k + c)).
  { intros k Hk. rewrite at_from by lia. f_equal; lia. }
  assert (Yd : yearBefore data (pe + c - 1)).
  { apply (yearBefore_ext (from data c) _ (pe - 1)); [|exact Y].
    intros k Hk. rewrite Hat by lia. f_equal; lia. }
  assert (FB : forall s, c - 1 <= s <= ps + c -> 0 <= s ->
               (forall k, s < k < ps + c + 1 -> at_ data k <> LF) ->
               firstBreakAfter data s (pe + c - 1)).
  { intros s Hs H0 Hn. split; [lia|]. split.
    - rewrite Hat in L2 by lia. replace (pe - 1 + c) with (pe + c - 1) in L2 by lia.
      exact L2.
    - intros k Hk. destruct (Z_lt_ge_dec k (ps + c + 1)) as [Hlt|Hge].
      + apply Hn; lia.
      + specialize (L3 (k - c) ltac:(lia)). rewrite Hat in L3 by lia.
        replace (k - c + c) with k in L3 by lia. exact L3. }
  destruct F as [[-> P]|[Hs P]].
  - (* the line starts data[c:] *)
    destruct Hl as [->|Hl].
    + exists 0. rewrite from_le0 in P by lia.
      split; [|lia]. split; [left; auto|]. split; [|exact Yd].
      apply FB; [lia | lia |]. intros k Hk. lia.
    + destruct (Z.eq_dec c 0) as [->|Hne].
      { exists 0. rewrite from_le0 in P by lia.
        split; [|lia]. split; [left; auto|]. split; [|exact Yd].
        apply FB; [lia | lia |]. intros k Hk. lia. }
      exists (c - 1). split; [|lia]. split; [|split; [|exact Yd]].
      * right. split; [lia|].
        rewrite (from_at data (c - 1)) by lia. rewrite Hl.
        replace (c - 1 + 1) with c by lia.
        unfold nlFrom. rewrite HasPrefix_cons_same. exact P.
      * apply FB; [lia | lia |]. intros k Hk.
        assert (k = c) as -> by lia.
        apply (From_no_break data c c); [lia | exact P | lia].
  - exists (ps + c). split; [|lia]. split; [|split; [|exact Yd]].
    + right. split; [lia|]. rewrite from_from in P by lia.
      rewrite Z.add_comm. exact P.
    + apply FB; [lia | lia |]. intros k Hk. lia.
Qed.

(** A candidate of [data] that starts at [c] or later is one of
    [data[c:]]. *)
Lemma candidate_into (data : bytes) (c s e : Z) :
  0 <= c <= s -> candidate data s e -> candidate (from data c) (s - c) (e - c).
Proof.
  intros Hc C. pose proof (candidate_bounds _ _ _ C) as Bd.
  destruct (Z.eq_dec c 0) as [->|Hne].
  { rewrite from_le0 by lia. rewrite !Z.sub_0_r. exact C. }
  destruct C as (F & (L1 & L2 & L3) & Y).
  assert (Hat : forall k, 0 <= k -> at_ (from data c) k = at_ data (k + c)).
  { intros k Hk. rewrite at_from by lia. f_equal; lia. }
  split; [|split].
  - right. split; [lia|]. destruct F as [[-> _]|[_ P]]; [lia|].
    rewrite from_from by lia. replace (c + (s - c)) with s by lia. exact P.
  - split; [rewrite len_from by lia; lia|]. split.
    + rewrite Hat by lia. replace (e - c - 1 + c) with (e - 1) by lia. exact L2.
    + intros k Hk. rewrite Hat by lia. apply L3. lia.
  - apply (yearBefore_ext data _ (e - 1)); [|exact Y].
    intros k Hk. rewrite Hat by lia. f_equal; lia.
Qed.

(** A candidate of [data] that starts at the line break before [c] is the
    first line of [data[c:]]. *)
Lemma candidate_into_head (data : bytes) (c e : Z) :
  1 <= c -> candidate data (c - 1) e -> HasPrefix (from data (c - 1)) nlFrom = true ->
  candidate (from data c) 0 (e - c).
Proof.
  intros Hc C P. pose proof (candidate_bounds _ _ _ C) as Bd.
  destruct C as (_ & (L1 & L2 & L3) & Y).
  assert (Hat : forall k, 0 <= k -> at_ (from data c) k = at_ data (k + c)).
  { intros k Hk. rewrite at_from by lia. f_equal; lia. }
  apply nlFrom_at in P; [|lia]. destruct P as (_ & P & _).
  replace (c - 1 + 1) with c in P by lia.
  split; [|split].
  - left. auto.
  - split; [rewrite len_from by lia; lia|]. split.
    + rewrite Hat by lia. replace (e - c - 1 + c) with (e - 1) by lia. exact L2.
    + intros k Hk. rewrite Hat by lia. apply L3. lia.
  - apply (yearBefore_ext data _ (e - 1)); [|exact Y].
    intros k Hk. rewrite Hat by lia. f_equal; lia.
Qed.

(** ** Prefixes of a single-message archive *)

Lemma cur_prefix_needs_more (rd : HeaderDecoder) (archive data q : bytes) :
  archive = data ++ q -> singleMessage archive ->
  Current.scanMessage rd data false = needMoreData.
Proof.
  intros -> (_ & _ & U).
  pose proof (cur_scanMessage_cases rd data false) as H. cbv zeta in H.
  destruct H as [H|[(H & _)|[(H & _)|(F & c & Hc & Hl & A)]]];
    [exact H | discriminate | discriminate |].
  exfalso.
  destruct (Current.findFroms data) as [s0 e0] eqn:F0. simpl in F, Hc.
  pose proof (candidate_bounds _ _ _ (cur_findFroms_sound _ _ _ F0 F)) as B0.
  destruct A as (ps & pe & h & _ & C & _).
  destruct (candidate_from data c ps pe ltac:(lia) (or_intror Hl) C) as (s & Cs & Hs & _).
  pose proof (U _ _ (candidate_app data q _ _ Cs)). lia.
Qed.

Lemma re_yearAt_app (l q : bytes) :
  Regex.yearAt l = true -> Regex.yearAt (l ++ q) = true.
Proof.
  destruct l as [|c1 [|c2 [|d1 [|d2 l]]]]; simpl; try discriminate. auto.
Qed.

Lemma re_lineHasYear_app (l q : bytes) :
  Regex.lineHasYear l = true -> Regex.lineHasYear (l ++ q) = true.
Proof.
  induction l as [|c l IH].
  - simpl. discriminate.
  - intros H. change (Regex.lineHasYear (c :: l)) with
      (Regex.yearAt (c :: l) || (negb (Byte.eqb c LF) && Regex.lineHasYear l)) in H.
    change (Regex.lineHasYear ((c :: l) ++ q)) with
      (Regex.yearAt ((c :: l) ++ q) || (negb (Byte.eqb c LF) && Regex.lineHasYear (l ++ q))).
    apply orb_true_iff in H. apply orb_true_iff.
    destruct H as [H|H]; [left; apply re_yearAt_app, H|].
    right. apply andb_true_iff in H. destruct H as [H1 H2].
    rewrite H1, (IH H2). reflexivity.
Qed.

Lemma re_lineHasYear_nil : Regex.lineHasYear [] = false.
Proof. reflexivity. Qed.

Lemma re_matchAt_app (l q : bytes) :
  Regex.matchAt l = true -> Regex.matchAt (l ++ q) = true.
Proof.
  unfold Regex.matchAt. rewrite !andb_true_iff. intros [P Y]. split.
  - apply HasPrefix_iff in P. destruct P as [r ->].
    rewrite <- app_assoc. apply HasPrefix_app.
  - rewrite skipn_app.
    destruct (skipn 6 l) as [|c l'] eqn:E; [discriminate|].
    assert (L : (6 - List.length l = 0)%nat).
    { destruct (Nat.le_gt_cases 6 (List.length l)) as [|G]; [lia|].
      rewrite skipn_all2 in E by lia. discriminate. }
    rewrite L. simpl skipn. apply re_lineHasYear_app, Y.
Qed.

Lemma re_FindIndex_ge (data : bytes) : -1 <= Regex.FindIndex data.
Proof.
  induction data as [|a data IH]; simpl.
  - destruct (Regex.matchAt []); lia.
  - destruct (Regex.matchAt (a :: data)); [lia|].
    destruct (Regex.FindIndex data =? -1); lia.
Qed.

(** A match in a buffer is still one when the buffer grows. *)
Lemma re_FindIndex_app (data q : bytes) :
  Regex.FindIndex data <> -1 -> Regex.FindIndex (data ++ q) <> -1.
Proof.
  induction data as [|a data IH]; intros H.
  - simpl in H. destruct (Regex.matchAt []) eqn:E; [discriminate E | contradiction].
  - simpl in *. destruct (Regex.matchAt (a :: data)) eqn:E.
    + change (a :: data ++ q) with ((a :: data) ++ q).
      rewrite (re_matchAt_app _ q E). discriminate.
    + destruct (Regex.FindIndex data =? -1) eqn:E1; [contradiction|].
      apply Z.eqb_neq in E1. specialize (IH E1).
      destruct (Regex.matchAt (a :: data ++ q)); [discriminate|].
      apply Z.eqb_neq in IH. rewrite IH. apply Z.eqb_neq in IH.
      pose proof (re_FindIndex_ge (data ++ q)). lia.
Qed.

Lemma re_prefix_needs_more (rd : HeaderDecoder) (archive data q : bytes) :
  archive = data ++ q -> singleMessageRe archive ->
  Regex.scanMessage rd data false = needMoreData.
Proof.
  intros -> [_ N].
  assert (E : Regex.FindIndex data = -1).
  { destruct (Z.eq_dec (Regex.FindIndex data) (-1)) as [|Hne]; [assumption|].
    exfalso. exact (re_FindIndex_app data q Hne N). }
  unfold Regex.scanMessage, Regex.scanFrom. rewrite andb_false_r, E. reflexivity.
Qed.

(** C4.  For every prefix [data] of a single-message archive (the archive
    itself included), [scanMessage] called with [atEOF = false] asks for
    more data: it consumes nothing and returns neither a token nor an
    error.  This holds for the current variant and for the
    regular-expression variant, each with its own notion of a separator. *)
Theorem prefix_needs_more_data (rd : HeaderDecoder) (archive data q : bytes) :
  archive = data ++ q ->
  (singleMessage archive ->
   Current.scanMessage rd data false = mkRes 0 None None) /\
  (singleMessageRe archive ->
   Regex.scanMessage rd data false = mkRes 0 None None).
Proof.
  intros H. split; intros S.
  - exact (cur_prefix_needs_more rd archive data q H S).
  - exact (re_prefix_needs_more rd archive data q H S).
Qed.

(** A way to check [singleMessage] by running [findFroms]. *)
Lemma singleMessage_by_findFroms (archive : bytes) :
  HasPrefix archive (B "From ") = true ->
  fst (Current.findFroms archive) = 0 ->
  Current.findFroms (from archive 1) = (-1, -1) ->
  singleMessage archive.
Proof.
  intros P F0 F1. split; [exact P|].
  destruct (Current.findFroms archive) as [s0 e0] eqn:F. simpl in F0. subst s0.
  pose proof (cur_findFroms_sound _ _ _ F ltac:(lia)) as C0.
  split; [exists e0; exact C0|].
  intros s e C. pose proof (candidate_bounds _ _ _ C) as Bd.
  destruct (Z.eq_dec s 0) as [|Hne]; [assumption|]. exfalso.
  destruct (cur_findFroms_none _ _ _ F1 (or_introl eq_refl)) as (_ & _ & N).
  apply (N (s - 1) (e - 1)). apply candidate_into; [lia | exact C].
Qed.

Lemma prefix_needs_more_data_witness :
  let archive := unlines ["From a 2015"; "Subj: x"; EmptyString; "Body"] in
  let data := upto archive 17 in
  data = B "From a 2015" ++ LF :: B "Subj:" /\
  Current.scanMessage Textproto.ReadMIMEHeader data false = mkRes 0 None None /\
  Regex.scanMessage Textproto.ReadMIMEHeader data false = mkRes 0 None None.
Proof.
  intros archive data. split; [reflexivity|].
  destruct (prefix_needs_more_data Textproto.ReadMIMEHeader archive data (from archive 17))
    as [H1 H2]; [symmetry; apply upto_from|].
  split.
  - apply H1. apply singleMessage_by_findFroms; reflexivity.
  - apply H2. split; reflexivity.
Defined.

(** ** A leading line break *)

Lemma from_cons1 (a : byte) (d : bytes) (i : Z) :
  0 <= i -> from (a :: d) (i + 1) = from d i.
Proof. apply from_cons. Qed.

Lemma slice_cons (a : byte) (d : bytes) (i j : Z) :
  0 <= i -> slice (a :: d) (i + 1) (j + 1) = slice d i j.
Proof.
  intros Hi. unfold slice. rewrite from_cons by lia.
  replace (j + 1 - (i + 1)) with (j - i) by lia. reflexivity.
Qed.

(** The candidates of a buffer and of the buffer behind a leading line
    break correspond, one byte apart. *)
Lemma candidate_LF_inv (d : bytes) (s' e' : Z) :
  candidate (LF :: d) s' e' ->
  exists s, candidate d s (e' - 1) /\ 0 <= s <= s'.
Proof.
  intros C. pose proof (candidate_bounds _ _ _ C) as Bd.
  destruct (Z.eq_dec s' 0) as [->|Hne].
  - exists 0. split; [|lia].
    assert (P : HasPrefix (from (LF :: d) (1 - 1)) nlFrom = true).
    { destruct C as ([[_ P]|[_ P]] & _); [discriminate P | exact P]. }
    pose proof (candidate_into_head (LF :: d) 1 e' ltac:(lia) C P) as C'.
    change 1 with (0 + 1) in C' at 1. rewrite from_cons in C' by lia.
    rewrite from_le0 in C' by lia. exact C'.
  - exists (s' - 1). split; [|lia].
    pose proof (candidate_into (LF :: d) 1 s' e' ltac:(lia) C) as C'.
    change 1 with (0 + 1) in C' at 1. rewrite from_cons in C' by lia.
    rewrite from_le0 in C' by lia. exact C'.
Qed.

Lemma candidate_LF (d : bytes) (s e : Z) :
  candidate d s e -> exists s', candidate (LF :: d) s' (e + 1) /\ 0 <= s' <= s + 1.
Proof.
  intros C. pose proof (candidate_bounds _ _ _ C) as Bd.
  destruct (candidate_from (LF :: d) 1 s e) as (s' & C' & Hs & H0).
  - rewrite len_cons. pose proof (len_nonneg d). lia.
  - right. reflexivity.
  - change 1 with (0 + 1). rewrite from_cons by lia. rewrite from_le0 by lia. exact C.
  - exists s'. split; [exact C' | lia].
Qed.

Lemma cur_findFroms_LF (d : bytes) :
  (fst (Current.findFroms d) = -1 /\ Current.findFroms (LF :: d) = (-1, -1)) \/
  (fst (Current.findFroms d) <> -1 /\ fst (Current.findFroms (LF :: d)) <> -1 /\
   snd (Current.findFroms (LF :: d)) = snd (Current.findFroms d) + 1).
Proof.
  destruct (cur_findFroms_spec d) as (s & e & _ & F & D).
  destruct (cur_findFroms_spec (LF :: d)) as (s' & e' & _ & F' & D').
  rewrite F, F'. simpl.
  destruct D as [(-> & -> & N)|(C & M)].
  - left. split; [reflexivity|].
    destruct D' as [(-> & -> & _)|(C' & _)]; [reflexivity|].
    exfalso. destruct (candidate_LF_inv d s' e' C') as (s & C & _). exact (N _ _ C).
  - right. pose proof (candidate_bounds _ _ _ C) as Bd.
    destruct D' as [(-> & -> & N')|(C' & M')].
    + exfalso. destruct (candidate_LF d s e C) as (s2 & C2 & _). exact (N' _ _ C2).
    + pose proof (candidate_bounds _ _ _ C') as Bd'.
      split; [lia|]. split; [lia|].
      destruct (candidate_LF_inv d s' e' C') as (s1 & C1 & H1).
      destruct (candidate_LF d s e C) as (s2 & C2 & H2).
      pose proof (M _ _ C1). pose proof (M' _ _ C2).
      pose proof (candidate_mono _ _ _ _ _ C C1 ltac:(lia)).
      pose proof (candidate_mono _ _ _ _ _ C' C2 ltac:(lia)). lia.
Qed.

Lemma cur_scanStep_LF (rd : HeaderDecoder) (d : bytes) (eof : bool) (e c : Z) :
  0 <= e -> 0 <= c ->
  Current.scanStep rd (LF :: d) eof (e + 1) (c + 1)
  = match Current.scanStep rd d eof e c with
    | inl r => inl (shiftRes r)
    | inr c' => inr (c' + 1)
    end.
Proof.
  intros He Hc. unfold Current.scanStep.
  rewrite !from_cons by lia.
  destruct (Current.findFroms (from d c)) as [ps pe] eqn:F.
  destruct ((ps =? -1) || (pe =? -1)) eqn:E.
  - destruct eof; [|reflexivity]. unfold shiftRes. simpl. rewrite len_cons. reflexivity.
  - apply orb_false_iff in E. rewrite !Z.eqb_neq in E. destruct E as [E1 E2].
    pose proof (candidate_bounds _ _ _ (cur_findFroms_sound _ _ _ F E1)) as Bd.
    replace (pe + (c + 1)) with (pe + c + 1) by lia.
    rewrite from_cons by lia.
    destruct (Index (from d (pe + c)) [LF; LF] =? -1); [reflexivity|].
    destruct (rd (from d (pe + c))) as [h [x|]]; [f_equal; lia|].
    destruct (headerLen h <? 2); [f_equal; lia|].
    unfold shiftRes. simpl. f_equal. f_equal; [lia|].
    replace (ps + (c + 1)) with (ps + c + 1) by lia.
    rewrite slice_cons by lia. reflexivity.
Qed.

Lemma cur_scanLoop_LF (rd : HeaderDecoder) (fuel : nat) (d : bytes) (eof : bool) (e c : Z) :
  0 <= e -> 1 <= c <= len d -> at_ d (c - 1) = LF ->
  Current.scanLoop rd fuel (LF :: d) eof (e + 1) (c + 1)
  = option_map shiftRes (Current.scanLoop rd fuel d eof e c).
Proof.
  revert c; induction fuel as [|fuel IH]; intros c He Hc Hl; [reflexivity|].
  simpl. rewrite cur_scanStep_LF by lia.
  pose proof (cur_scanStep_cases rd d eof e c ltac:(lia)) as S.
  destruct (Current.scanStep rd d eof e c) as [r|c']; [reflexivity|].
  destruct S as [S (ps & pe & _ & C & -> & _)].
  apply IH; [lia | lia |].
  destruct C as (_ & (L1 & L2 & _) & _).
  rewrite at_from in L2 by lia.
  replace (c + (pe - 1)) with (pe + c - 1) in L2 by lia. exact L2.
Qed.

Lemma cur_scanLoop_more (rd : HeaderDecoder) (fuel : nat) (d : bytes) (eof : bool)
  (e c : Z) (r : SplitResult) :
  Current.scanLoop rd fuel d eof e c = Some r ->
  Current.scanLoop rd (S fuel) d eof e c = Some r.
Proof.
  revert c; induction fuel as [|fuel IH]; intros c H; [discriminate|].
  simpl in H. change (Current.scanLoop rd (S (S fuel)) d eof e c) with
    (match Current.scanStep rd d eof e c with
     | inl r => Some r
     | inr c' => Current.scanLoop rd (S fuel) d eof e c'
     end).
  destruct (Current.scanStep rd d eof e c) as [r0|c']; [exact H|].
  apply IH, H.
Qed.

Lemma cur_scanMessage_bounds (rd : HeaderDecoder) (d : bytes) (eof : bool) :
  0 <= advance (Current.scanMessage rd d eof) <= len d /\
  (token (Current.scanMessage rd d eof) = None ->
   eof = false -> Current.scanMessage rd d eof = needMoreData).
Proof.
  pose proof (len_nonneg d) as Ld.
  pose proof (cur_scanMessage_cases rd d eof) as H. cbv zeta in H.
  destruct H as [H|[(H0 & H & _)|[(H0 & _ & H)|(F & c & Hc & Hl & A)]]].
  - rewrite H. simpl. split; [lia | auto].
  - rewrite H. simpl. split; [lia | intros _ E; congruence].
  - rewrite H. simpl. split; [lia | discriminate].
  - destruct (Current.findFroms d) as [s0 e0] eqn:F0. simpl in F, Hc.
    pose proof (candidate_bounds _ _ _ (cur_findFroms_sound _ _ _ F0 F)) as B0.
    destruct A as (ps & pe & h & _ & C & _ & _ & _ & ->).
    pose proof (candidate_bounds _ _ _ C) as Bd. rewrite len_from in Bd by lia.
    simpl. split; [lia | discriminate].
Qed.

Lemma cur_scanMessage_LF (rd : HeaderDecoder) (d : bytes) (eof : bool) :
  lfRel (Current.scanMessage rd (LF :: d) eof) (Current.scanMessage rd d eof).
Proof.
  pose proof (cur_scanMessage_bounds rd d eof) as [Bd Nd].
  pose proof (len_nonneg d) as Ld.
  unfold lfRel. unfold Current.scanMessage in *.
  rewrite len_cons.
  replace (len d + 1 =? 0) with false by (symmetry; apply Z.eqb_neq; lia).
  cbn [andb].
  destruct ((len d =? 0) && eof) eqn:E0.
  - apply andb_true_iff in E0. destruct E0 as [E0 ->].
    apply Z.eqb_eq in E0. apply len_zero in E0. subst d. simpl. auto with zarith.
  - destruct (cur_findFroms_LF d) as [(F & F')|(F & F' & Fe)].
    + rewrite F'. destruct (Current.findFroms d) as [s e]. simpl in F. subst s.
      rewrite !Z.eqb_refl. cbn [orb]. destruct eof; cbn [negb advance token err].
      * split; [reflexivity|]. split; [reflexivity|]. intros _. lia.
      * split; [reflexivity|]. split; [reflexivity|]. intros _.
        split; [lia|]. right. auto.
    + destruct (Current.findFroms d) as [s e] eqn:Fd.
      destruct (Current.findFroms (LF :: d)) as [s' e'] eqn:Fd'.
      simpl in F, F', Fe. subst e'.
      pose proof (cur_findFroms_sound _ _ _ Fd F) as C.
      pose proof (candidate_bounds _ _ _ C) as Bc.
      replace ((s =? -1) || (e =? -1)) with false in *
        by (symmetry; apply orb_false_iff; split; apply Z.eqb_neq; lia).
      replace ((s' =? -1) || (e + 1 =? -1)) with false
        by (symmetry; apply orb_false_iff; split; apply Z.eqb_neq; lia).
      assert (Hl : at_ d (e - 1) = LF) by (destruct C as (_ & (_ & L & _) & _); exact L).
      destruct (cur_scanLoop_spec rd (S (List.length d)) d eof e e) as (r & L & D);
        [lia | exact Hl | unfold len; lia |].
      rewrite L in Bd, Nd.
      change (S (List.length (LF :: d))) with (S (S (List.length d))).
      rewrite cur_scanLoop_LF by (try lia; exact Hl).
      rewrite (cur_scanLoop_more _ _ _ _ _ _ _ L), L. simpl.
      assert (Er : err r = None).
      { destruct D as [->|[[_ ->]|(c & _ & _ & ps & pe & h & A)]]; try reflexivity.
        destruct A as (_ & _ & _ & _ & _ & ->). reflexivity. }
      unfold shiftRes. destruct (token r) as [t|] eqn:T; simpl.
      * split; [auto|]. split; [reflexivity|]. intros _. lia.
      * split; [auto|]. split; [auto|]. intros _.
        split; [lia|]. right.
        destruct D as [->|[[_ ->]|(c & _ & _ & ps & pe & h & A)]].
        -- simpl. auto.
        -- discriminate T.
        -- destruct A as (_ & _ & _ & _ & _ & ->). discriminate T.
Qed.

Section LeadingLF.

Variable split : SplitFunc.

(** The bytes of the stream behind the leading line break. *)
Variable total : bytes.

Hypothesis split_nil : split [] false = mkRes 0 None None.

Hypothesis split_LF : forall p q eof,
  p ++ q = total -> (eof = true -> q = []) ->
  lfRel (split (LF :: p) eof) (split p eof).

Lemma lfOut_refl (x : bool * BufScanner) : lfOut x x.
Proof. unfold lfOut. repeat split; auto. Qed.

Lemma trySplit_LF (p q : bytes) (src : list bytes) (e : scanErr) (t0 : option bytes) :
  p ++ q = total -> e = NoErr \/ (e = AtEOF /\ q = []) ->
  match trySplit split (LF :: p) src e t0, trySplit split p src e t0 with
  | inl x', inl x => lfOut x' x
  | inr b', inr b => b' = b \/ (b' = LF :: p /\ b = p)
  | _, _ => False
  end.
Proof.
  intros Hp He. unfold trySplit.
  set (eof := match e with NoErr => false | _ => true end).
  assert (Hq : eof = true -> q = []).
  { subst eof. destruct He as [->|[-> Hq]]; [discriminate | auto]. }
  destruct (split_LF p q eof Hp Hq) as (R1 & R2 & R3).
  rewrite R1. destruct (err (split p eof)) as [x|] eqn:E.
  - unfold lfOut. simpl. repeat split; auto.
    right. split; [reflexivity|].
    destruct He as [->|[-> _]]; simpl; eauto.
  - destruct (R3 eq_refl) as [A0 A]. rewrite len_cons.
    replace (advance (split p eof) <? 0) with false by (symmetry; apply Z.ltb_ge; lia).
    destruct A as [A|(A1 & A2 & A3)].
    + rewrite A.
      replace (advance (split p eof) + 1 <? 0) with false
        by (symmetry; apply Z.ltb_ge; lia).
      replace (len p + 1 <? advance (split p eof) + 1)
        with (len p <? advance (split p eof))
        by (destruct (Z.ltb_spec (len p) (advance (split p eof)));
            symmetry; [apply Z.ltb_lt | apply Z.ltb_ge]; lia).
      destruct (len p <? advance (split p eof)).
      * unfold lfOut. simpl. repeat split; auto.
        right. split; [reflexivity|].
        destruct He as [->|[-> _]]; simpl; eauto.
      * rewrite R2. rewrite from_cons by lia.
        destruct (token (split p eof)); [apply lfOut_refl | left; reflexivity].
    + rewrite A1, A2, R2, A3. simpl.
      pose proof (len_nonneg p).
      replace (len p + 1 <? 0) with false by (symmetry; apply Z.ltb_ge; lia).
      replace (len p <? 0) with false by (symmetry; apply Z.ltb_ge; lia).
      right. rewrite !from_le0 by lia. auto.
Qed.

Lemma scanRead_LF (src : list bytes) (b : bytes) (t0 : option bytes) :
  b ++ List.concat src = total ->
  lfOut (scanRead split (LF :: b) src t0) (scanRead split b src t0).
Proof.
  revert b t0; induction src as [|c src IH]; intros b t0 H.
  - simpl in *. rewrite app_nil_r in H. unfold scanFinal.
    pose proof (trySplit_LF b [] [] AtEOF t0) as T.
    rewrite app_nil_r in T. specialize (T H (or_intror (conj eq_refl eq_refl))).
    destruct (trySplit split (LF :: b) [] AtEOF t0) as [x'|b'],
             (trySplit split b [] AtEOF t0) as [x|b0]; try contradiction.
    + exact T.
    + apply lfOut_refl.
  - simpl in H. destruct c as [|a c].
    + simpl. apply IH. exact H.
    + change (scanRead split (LF :: b) ((a :: c) :: src) t0) with
        (match trySplit split ((LF :: b) ++ a :: c) src NoErr t0 with
         | inl r => r
         | inr b' => scanRead split b' src None
         end).
      change (scanRead split b ((a :: c) :: src) t0) with
        (match trySplit split (b ++ a :: c) src NoErr t0 with
         | inl r => r
         | inr b' => scanRead split b' src None
         end).
      change ((LF :: b) ++ a :: c) with (LF :: (b ++ a :: c)).
      pose proof (trySplit_LF (b ++ a :: c) (List.concat src) src NoErr t0) as T.
      rewrite <- app_assoc in T. specialize (T H (or_introl eq_refl)).
      destruct (trySplit split (LF :: b ++ a :: c) src NoErr t0) as [x'|b'],
               (trySplit split (b ++ a :: c) src NoErr t0) as [x|b0]; try contradiction.
      * exact T.
      * destruct T as [->|[-> ->]]; [apply lfOut_refl|].
        apply IH. rewrite <- app_assoc. exact H.
Qed.

Lemma Scan_LF (c : bytes) (cs : list bytes) :
  c ++ List.concat cs = total ->
  lfOut (Scan split (newBufScanner ((LF :: c) :: cs)))
        (Scan split (newBufScanner (c :: cs))).
Proof.
  intros H. unfold Scan, newBufScanner. simpl serr; simpl sbuf; simpl ssrc; simpl stoken.
  destruct c as [|a c].
  - (* the line break arrives alone *)
    change (scanRead split [] ([] :: cs) None) with (scanRead split [] cs None).
    change (scanRead split [] ([LF] :: cs) None) with
      (match trySplit split [LF] cs NoErr None with
       | inl r => r
       | inr b' => scanRead split b' cs None
       end).
    pose proof (trySplit_LF [] (List.concat cs) cs NoErr None H (or_introl eq_refl)) as T.
    assert (E : trySplit split [] cs NoErr None = inr [])
      by (unfold trySplit; rewrite split_nil; reflexivity).
    rewrite E in T.
    destruct (trySplit split [LF] cs NoErr None) as [x'|b']; [contradiction|].
    destruct T as [->|[-> _]]; [apply lfOut_refl|].
    apply scanRead_LF. exact H.
  - change (scanRead split [] ((LF :: a :: c) :: cs) None) with
      (match trySplit split (LF :: a :: c) cs NoErr None with
       | inl r => r
       | inr b' => scanRead split b' cs None
       end).
    change (scanRead split [] ((a :: c) :: cs) None) with
      (match trySplit split (a :: c) cs NoErr None with
       | inl r => r
       | inr b' => scanRead split b' cs None
       end).
    pose proof (trySplit_LF (a :: c) (List.concat cs) cs NoErr None H (or_introl eq_refl)) as T.
    destruct (trySplit split (LF :: a :: c) cs NoErr None) as [x'|b'],
             (trySplit split (a :: c) cs NoErr None) as [x|b0]; try contradiction.
    + exact T.
    + destruct T as [->|[-> ->]]; [apply lfOut_refl|].
      apply scanRead_LF. exact H.
Qed.

(** The tokens of the two scans are the same, and so is the error they end
    with. *)
Lemma scanTokens_LF (c : bytes) (cs : list bytes) (n : nat) :
  c ++ List.concat cs = total ->
  fst (scanTokens split n (newBufScanner ((LF :: c) :: cs)))
  = fst (scanTokens split n (newBufScanner (c :: cs))) /\
  bufErr (snd (scanTokens split n (newBufScanner ((LF :: c) :: cs))))
  = bufErr (snd (scanTokens split n (newBufScanner (c :: cs)))).
Proof.
  intros H. destruct n as [|n]; [simpl; auto|].
  simpl. pose proof (Scan_LF c cs H) as L.
  destruct (Scan split (newBufScanner ((LF :: c) :: cs))) as [ok' st'],
           (Scan split (newBufScanner (c :: cs))) as [ok st].
  destruct L as (L1 & L2 & L3 & L4 & L5). simpl in *. subst ok'.
  destruct ok.
  - assert (st' = st) as ->.
    { destruct st', st. simpl in *. subst.
      destruct L5 as [->|[L5 _]]; [reflexivity | discriminate]. }
    auto.
  - simpl. split; [reflexivity|]. unfold bufErr. rewrite L3. reflexivity.
Qed.

End LeadingLF.

(** ** A leading line break in the regular-expression variant *)

Lemma isDigit_not_LF (c : byte) : isDigit c = true -> c <> LF.
Proof. intros H ->. discriminate H. Qed.

Lemma re_yearAt_no_LF (l q : bytes) :
  Regex.yearAt (l ++ q) = true -> Regex.yearAt l = false -> ~ In LF l.
Proof.
  intros Y N.
  assert (D : forall c, (Byte.eqb c "1" = true \/ Byte.eqb c "2" = true \/
                         Byte.eqb c "9" = true \/ Byte.eqb c "0" = true \/
                         isDigit c = true) -> c <> LF).
  { intros c [H|[H|[H|[H|H]]]] ->; discriminate H. }
  destruct l as [|c1 [|c2 [|d1 [|d2 l]]]].
  - intros [].
  - destruct q as [|c2 [|d1 [|d2 q]]]; simpl in Y; try discriminate.
    rewrite !andb_true_iff, orb_true_iff, !andb_true_iff in Y.
    intros [E|[]]. apply (D c1); [tauto | exact E].
  - destruct q as [|d1 [|d2 q]]; simpl in Y; try discriminate.
    rewrite !andb_true_iff, orb_true_iff, !andb_true_iff in Y.
    intros [E|[E|[]]]; [apply (D c1) | apply (D c2)]; tauto.
  - destruct q as [|d2 q]; simpl in Y; try discriminate.
    rewrite !andb_true_iff, orb_true_iff, !andb_true_iff in Y.
    intros [E|[E|[E|[]]]]; [apply (D c1) | apply (D c2) | apply (D d1)]; tauto.
  - simpl in Y, N. congruence.
Qed.

(** While the year of a line is not yet in the buffer, the line holds no
    line break. *)
Lemma re_lineHasYear_no_LF (l q : bytes) :
  Regex.lineHasYear (l ++ q) = true -> Regex.lineHasYear l = false -> ~ In LF l.
Proof.
  induction l as [|c l IH]; intros Y N; [intros []|].
  change (Regex.lineHasYear (c :: l)) with
    (Regex.yearAt (c :: l) || (negb (Byte.eqb c LF) && Regex.lineHasYear l)) in N.
  change (Regex.lineHasYear ((c :: l) ++ q)) with
    (Regex.yearAt ((c :: l) ++ q) || (negb (Byte.eqb c LF) && Regex.lineHasYear (l ++ q))) in Y.
  apply orb_false_iff in N. destruct N as [N1 N2].
  apply orb_true_iff in Y. destruct Y as [Y|Y].
  - exact (re_yearAt_no_LF _ _ Y N1).
  - apply andb_true_iff in Y. destruct Y as [Y1 Y2]. rewrite Y1 in N2. simpl in N2.
    apply negb_true_iff, beqb_neq in Y1.
    intros [E|H]; [exact (Y1 E) | exact (IH Y2 N2 H)].
Qed.

Lemma re_FindIndex_no_LF (p : bytes) : ~ In LF p -> Regex.FindIndex p = -1.
Proof.
  induction p as [|a p IH]; intros H; [reflexivity|].
  simpl. assert (M : Regex.matchAt (a :: p) = false).
  { unfold Regex.matchAt, nlFrom. simpl HasPrefix.
    destruct (Byte.eqb a LF) eqn:E; [|reflexivity].
    apply beqb_eq in E. exfalso. apply H. left. auto. }
  rewrite M, IH; [reflexivity|]. intros I. apply H. right. exact I.
Qed.

Lemma re_matchAt_LF (x : bytes) :
  Regex.matchAt (LF :: x) = HasPrefix x (B "From ") && Regex.lineHasYear (skipn 5 x).
Proof. unfold Regex.matchAt, nlFrom. rewrite HasPrefix_cons_same. reflexivity. Qed.

(** Before the first line of the stream shows its year, the buffer holds
    no match at all. *)
Lemma re_partial_first_line (p q : bytes) :
  Regex.matchAt (LF :: p ++ q) = true -> Regex.matchAt (LF :: p) = false ->
  Regex.FindIndex (LF :: p) = -1 /\ Regex.FindIndex p = -1.
Proof.
  intros T N.
  assert (NL : ~ In LF p).
  { rewrite re_matchAt_LF in T, N. apply andb_true_iff in T. destruct T as [T1 T2].
    apply HasPrefix_iff in T1. destruct T1 as [l T1].
    destruct (HasPrefix p (B "From ")) eqn:P.
    - simpl in N. apply HasPrefix_iff in P. destruct P as [l1 ->].
      rewrite <- app_assoc in T2. simpl skipn in T2, N.
      intros I. apply in_app_or in I. destruct I as [I|I].
      + simpl in I. repeat (destruct I as [I|I]; [discriminate I|]). exact I.
      + exact (re_lineHasYear_no_LF _ _ T2 N I).
    - (* fewer than five bytes, all of them bytes of [From ] *)
      assert (L : (List.length p < 5)%nat).
      { destruct (Nat.le_gt_cases 5 (List.length p)) as [G|G]; [|exact G].
        exfalso. assert (E : firstn 5 (p ++ q) = firstn 5 p).
        { rewrite firstn_app. replace (5 - List.length p)%nat with O by lia.
          simpl. apply app_nil_r. }
        rewrite T1 in E. change (firstn 5 (B "From " ++ l)) with (B "From ") in E.
        assert (P' : HasPrefix p (B "From ") = true).
        { apply HasPrefix_iff. exists (skipn 5 p).
          rewrite <- (firstn_skipn 5 p) at 1. rewrite <- E. reflexivity. }
        congruence. }
      assert (E : p = firstn (List.length p) (B "From " ++ l)).
      { rewrite <- T1. rewrite firstn_app, firstn_all.
        replace (List.length p - List.length p)%nat with O by lia.
        simpl. symmetry. apply app_nil_r. }
      rewrite E. clear -L.
      destruct (List.length p) as [|[|[|[|[|n]]]]]; simpl;
        try lia; intuition discriminate. }
  pose proof (re_FindIndex_no_LF p NL) as F. split; [|exact F].
  simpl. rewrite N, F. reflexivity.
Qed.

Lemma lfRel_same (r : SplitResult) :
  (err r = None -> advance r = 0 /\ token r = None) -> lfRel r r.
Proof.
  intros H. unfold lfRel. split; [reflexivity|]. split; [reflexivity|].
  intros E. destruct (H E) as [A T]. rewrite A. split; [lia|]. right. auto.
Qed.

Lemma lfRel_emit (a : Z) (t : option bytes) :
  0 <= a -> lfRel (mkRes (a + 1) t None) (mkRes (a + 0) t None).
Proof.
  intros H. unfold lfRel. simpl. split; [reflexivity|]. split; [reflexivity|].
  intros _. lia.
Qed.

Lemma re_emitAt_LF (data : bytes) (n e : Z) :
  lfRel (Regex.emitAt data n e 1) (Regex.emitAt data n e 0).
Proof.
  unfold Regex.emitAt.
  destruct (atChk data (e - 1)) as [c|] eqn:A; [|apply lfRel_same; discriminate].
  assert (He : 1 <= e).
  { unfold atChk in A.
    destruct ((0 <=? e - 1) && (e - 1 <? len data)) eqn:E; [|discriminate].
    apply andb_true_iff in E. destruct E as [E _]. apply Z.leb_le in E. lia. }
  destruct (negb (Byte.eqb c LF)).
  - destruct (sliceChk data (n + 1) (e + 1)); [|apply lfRel_same; discriminate].
    apply lfRel_emit. lia.
  - destruct (sliceChk data (n + 1) e); [|apply lfRel_same; discriminate].
    apply lfRel_emit. lia.
Qed.

Lemma re_scanBody_LF (rd : HeaderDecoder) (data : bytes) (n e : Z) :
  lfRel (Regex.scanBody rd data n e 1) (Regex.scanBody rd data n e 0).
Proof.
  unfold Regex.scanBody.
  destruct (rd (from data (n + 1))) as [h [x|]].
  - apply lfRel_same. discriminate.
  - destruct (if Contains (Get h (B "Content-Type")) (B "multipart")
              then boundaryOf (Split (Get h (B "Content-Type")) (B "; ")) (B "--") (B "--")
              else []) as [|b0 bnd].
    + apply re_emitAt_LF.
    + destruct (Index data (b0 :: bnd) =? -1).
      * destruct (_ >? e).
        -- destruct (sliceChk data (n + 1) e) eqn:S.
           ++ apply lfRel_emit. unfold sliceChk in S.
              destruct ((0 <=? n + 1) && (n + 1 <=? e) && (e <=? len data)) eqn:E;
                [|discriminate].
              rewrite !andb_true_iff, !Z.leb_le in E. lia.
           ++ apply lfRel_same. discriminate.
        -- apply lfRel_same. auto.
      * apply re_emitAt_LF.
Qed.

Lemma re_scanFrom_LF (rd : HeaderDecoder) (data : bytes) (eof : bool) (e : Z) :
  lfRel (Regex.scanFrom rd data eof 1 e) (Regex.scanFrom rd data eof 0 e).
Proof.
  unfold Regex.scanFrom.
  destruct ((e =? -1) && negb eof).
  { apply (lfRel_emit 0 None). lia. }
  destruct (negb (HasPrefix data (B "From "))).
  { unfold lfRel. simpl. split; [reflexivity|]. split; [reflexivity|]. discriminate. }
  destruct (IndexByte data LF =? -1).
  { unfold lfRel. simpl. split; [reflexivity|]. split; [reflexivity|]. discriminate. }
  destruct eof; [|apply re_scanBody_LF].
  destruct (negb (Byte.eqb (at_ data (len data - 1)) LF)).
  { unfold lfRel. simpl. split; [reflexivity|]. split; [reflexivity|]. discriminate. }
  apply lfRel_emit. apply len_nonneg.
Qed.

Lemma re_scanMessage_LF (rd : HeaderDecoder) (total p q : bytes) (eof : bool) :
  Regex.matchAt (LF :: total) = true ->
  p ++ q = total -> (eof = true -> q = []) ->
  lfRel (Regex.scanMessage rd (LF :: p) eof) (Regex.scanMessage rd p eof).
Proof.
  intros T Hp Hq. subst total.
  destruct (Regex.matchAt (LF :: p)) eqn:M.
  - (* the separator line is in the buffer: the line break is skipped *)
    assert (P : HasPrefix p (B "From ") = true).
    { rewrite re_matchAt_LF in M. apply andb_true_iff in M. tauto. }
    pose proof (re_FindIndex_From p P) as F0.
    pose proof (HasPrefix_len _ _ P) as L. change (len (B "From ")) with 5 in L.
    unfold Regex.scanMessage. rewrite len_cons.
    replace (len p + 1 =? 0) with false by (symmetry; apply Z.eqb_neq; lia).
    replace (len p =? 0) with false by (symmetry; apply Z.eqb_neq; lia).
    cbn [andb]. simpl Regex.FindIndex at 1. rewrite M. cbn [Z.eqb].
    change 1 with (0 + 1) at 1 2. rewrite from_cons by lia. rewrite from_le0 by lia.
    apply Z.eqb_neq in F0. rewrite F0.
    apply re_scanFrom_LF.
  - (* the separator line is not complete: both calls ask for more *)
    assert (E : eof = false).
    { destruct eof; [|reflexivity]. rewrite (Hq eq_refl), app_nil_r in T. congruence. }
    subst eof. destruct (re_partial_first_line p q T M) as [F1 F2].
    unfold Regex.scanMessage, Regex.scanFrom. rewrite !andb_false_r, F1, F2.
    simpl. apply lfRel_same. auto.
Qed.

(** C10.  A reader that delivers a line break and then the chunks of an
    archive makes [Scan] yield the tokens it yields on the archive itself,
    and end with the same error: for the current variant whatever follows
    the line break, for the regular-expression variant when its expression
    matches the line break and the separator line behind it. *)
Theorem leading_line_break_is_skipped (rd : HeaderDecoder) (c : bytes)
  (cs : list bytes) (n : nat) :
  (fst (scanTokens (Current.scanMessage rd) n (newBufScanner ((LF :: c) :: cs)))
   = fst (scanTokens (Current.scanMessage rd) n (newBufScanner (c :: cs))) /\
   bufErr (snd (scanTokens (Current.scanMessage rd) n (newBufScanner ((LF :: c) :: cs))))
   = bufErr (snd (scanTokens (Current.scanMessage rd) n (newBufScanner (c :: cs))))) /\
  (Regex.matchAt (LF :: c ++ List.concat cs) = true ->
   fst (scanTokens (Regex.scanMessage rd) n (newBufScanner ((LF :: c) :: cs)))
   = fst (scanTokens (Regex.scanMessage rd) n (newBufScanner (c :: cs))) /\
   bufErr (snd (scanTokens (Regex.scanMessage rd) n (newBufScanner ((LF :: c) :: cs))))
   = bufErr (snd (scanTokens (Regex.scanMessage rd) n (newBufScanner (c :: cs))))).
Proof.
  split.
  - apply (scanTokens_LF (Current.scanMessage rd) (c ++ List.concat cs)).
    + reflexivity.
    + intros p q eof _ _. apply cur_scanMessage_LF.
    + reflexivity.
  - intros M.
    apply (scanTokens_LF (Regex.scanMessage rd) (c ++ List.concat cs)).
    + reflexivity.
    + intros p q eof Hp Hq. exact (re_scanMessage_LF rd _ p q eof M Hp Hq).
    + reflexivity.
Qed.

Lemma leading_line_break_is_skipped_witness :
  let c := unlines ["From a 2015"; "A: 1"; "B: 2"; EmptyString; "Body"; EmptyString] in
  let cs := [unlines ["From b 2016"; "C: 1"; "D: 2"; EmptyString; "Body2"]] in
  Regex.matchAt (LF :: c ++ List.concat cs) = true /\
  fst (scanTokens (Current.scanMessage Textproto.ReadMIMEHeader) 3
         (newBufScanner ((LF :: c) :: cs)))
  = [unlines ["A: 1"; "B: 2"; EmptyString; "Body"];
     unlines ["C: 1"; "D: 2"; EmptyString; "Body2"]] /\
  fst (scanTokens (Regex.scanMessage Textproto.ReadMIMEHeader) 3
         (newBufScanner ((LF :: c) :: cs)))
  = fst (scanTokens (Regex.scanMessage Textproto.ReadMIMEHeader) 3
           (newBufScanner (c :: cs))).
Proof.
  intros c cs.
  destruct (leading_line_break_is_skipped Textproto.ReadMIMEHeader c cs 3)
    as [[H1 _] H2].
  split; [reflexivity|]. split.
  - rewrite H1. reflexivity.
  - apply H2. reflexivity.
Defined.

(** C3: the code at an archive whose multipart message holds a look-alike
    [From ] line with a year before the boundary terminator.  The
    regular-expression variant finds the look-alike at 65 and the
    terminator at 91, searches the whole buffer again instead of the part
    behind the terminator, takes 65 + 91 for the end of the message and
    indexes the 128-byte buffer out of range.  The list variant cuts the
    message behind the terminator, before the separator at 99. *)
Theorem multipart_lookalike_before_terminator :
  let data := unlines
    ["From a 2015"; "Content-Type: multipart/mixed; boundary=XX"; "B: 2";
     EmptyString; "Body"; "From lookalike 2014"; "more"; "--XX--"; EmptyString;
     "From b 2016"; "C: 1"; "D: 2"; EmptyString; "Body2"] in
  len data = 128 /\
  Regex.FindIndex data = 65 /\
  Index data (B "--XX--") = 91 /\
  Regex.scanMessage Textproto.ReadMIMEHeader data false = panic /\
  FromList.scanMessage Textproto.ReadMIMEHeader data false
  = mkRes 99 (Some (unlines
      ["Content-Type: multipart/mixed; boundary=XX"; "B: 2"; EmptyString;
       "Body"; "From lookalike 2014"; "more"; "--XX--"])) None.
Proof. repeat split; reflexivity. Qed.

(** ** Archives of well-formed messages *)




Lemma Index_prefix_inv (p q sep : bytes) :
  Index (p ++ q) sep <> -1 -> Index (p ++ q) sep + len sep <= len p ->
  Index p sep = Index (p ++ q) sep.
Proof.
  intros H L. destruct (Index_range (p ++ q) sep) as [?|[H0 H1]]; [contradiction|].
  pose proof (len_nonneg sep).
  apply Index_unique; [lia | |].
  - rewrite <- (HasPrefix_app_l p q) by lia. apply Index_found, H.
  - intros j Hj. rewrite <- (HasPrefix_app_l p q) by lia.
    apply Index_first; [lia | right; lia].
Qed.








Section Stream.

Variable rd : HeaderDecoder.


End Stream.

(** ** The scan of an archive of well-formed messages *)



Section ScanStream.

Variable rd : HeaderDecoder.

Local Abbreviation split := (Current.scanMessage rd).








End ScanStream.






(** ** The reference decoder reads no further than the first empty line *)






